(** * The AMQP broker of spectacles.js (packages/brokers/src/Amqp.ts)

    A shallow embedding of the [Amqp] class: the broker object, the
    amqplib channel it talks to, the notifications it emits and the timers
    it sets are components of one explicit [World]; every method is a
    program in a small free monad whose [Await] nodes are the suspension
    points of the TypeScript [async] functions. *)

From Stdlib Require Import ZArith Ascii String List Lia.
From stdpp Require Import gmap strings list fin_maps pretty.

Local Open Scope Z_scope.

(** ** JavaScript values *)

Definition Buffer := list ascii.

Inductive JsVal : Type :=
| JUndefined
| JBool (b : bool)
| JNum (n : Z)
| JNaN
| JStr (s : string)
| JError (message : string)
| JMember (name : string).   (* the member [name] of [Object.prototype] *)

#[global] Instance JsVal_eq_dec : EqDecision JsVal.
Proof. solve_decision. Defined.

(** A plain JS object used as a record of optional fields
    ([amqp.Options.Publish], [amqp.Options.Consume], message properties). *)
Abbreviation Obj := (gmap string JsVal).

(** [o.k]: an absent property reads as [undefined]. *)
Definition prop (o : Obj) (k : string) : JsVal := default JUndefined (o !! k).

(** [Object.assign(target, source)] for a source given as its own
    enumerable properties in order. *)
Definition object_assign (target : Obj) (source : list (string * JsVal)) : Obj :=
  fold_left (fun o kv => <[kv.1 := kv.2]> o) source target.

(** Truthiness of an optional string ([undefined] and [''] are falsy). *)
Definition truthy_str (s : option string) : option string :=
  match s with
  | Some "" => None
  | Some t => Some t
  | None => None
  end.

(** Truthiness of a value. *)
Definition truthy (v : JsVal) : bool :=
  match v with
  | JUndefined | JNaN => false
  | JBool b => b
  | JNum n => negb (n =? 0)
  | JStr s => match s with "" => false | _ => true end
  | JError _ | JMember _ => true
  end.

(** ** Plain objects used as maps

    [this._consumers] is created as [{}] and so inherits from
    [Object.prototype]. Reading a key that is no own property finds the
    member of that name of the prototype, if it has one (a function, or the
    prototype itself for ["__proto__"]). Assigning to a key creates or
    updates an own property, except that ["__proto__"], unless it is an own
    property, goes to the inherited setter, which ignores a string.
    [delete] removes an own property only, as [delete] of the map does. *)

Definition object_prototype_keys : list string :=
  ["constructor"; "__defineGetter__"; "__defineSetter__"; "hasOwnProperty";
   "__lookupGetter__"; "__lookupSetter__"; "isPrototypeOf"; "propertyIsEnumerable";
   "toString"; "valueOf"; "__proto__"; "toLocaleString"].

(** [o[k]] *)
Definition object_get (o : gmap string string) (k : string) : JsVal :=
  match o !! k with
  | Some v => JStr v
  | None => if bool_decide (k ∈ object_prototype_keys) then JMember k else JUndefined
  end.

(** [o[k] = v] *)
Definition object_set (k v : string) (o : gmap string string) : gmap string string :=
  if bool_decide (k = "__proto__" ∧ o !! k = None) then o else <[k := v]> o.

(** ** [parseInt(s, 10)] *)

Definition is_space (c : ascii) : bool :=
  let n := nat_of_ascii c in
  ((9 <=? n) && (n <=? 13))%nat || (n =? 32)%nat.

Definition digit_of (c : ascii) : option Z :=
  let n := nat_of_ascii c in
  if ((48 <=? n) && (n <=? 57))%nat then Some (Z.of_nat n - 48) else None.

Fixpoint skip_spaces (s : string) : string :=
  match s with
  | String c r => if is_space c then skip_spaces r else s
  | EmptyString => s
  end.

Fixpoint digits_from (acc : option Z) (s : string) : option Z :=
  match s with
  | String c r =>
      match digit_of c with
      | Some d => digits_from (Some (10 * default 0 acc + d)) r
      | None => acc
      end
  | EmptyString => acc
  end.

Definition parseInt10 (s : string) : JsVal :=
  let body := skip_spaces s in
  let '(sign, rest) :=
    match body with
    | String "-" r => (-1, r)
    | String "+" r => (1, r)
    | _ => (1, body)
    end in
  match digits_from None rest with
  | Some n => JNum (sign * n)
  | None => JNaN
  end.

(** ** The broker object *)

Record AmqpOptions : Type := mkOptions {
  reconnectTimeout : option Z;
  consume : option Obj;
  assert : option Obj
}.

Definition empty_options : AmqpOptions :=
  {| reconnectTimeout := None; consume := None; assert := None |}.

Record Amqp : Type := mkAmqp {
  channel : option nat;
  callback : option string;
  group : string;
  subgroup : option string;
  options : AmqpOptions;
  _consumers : gmap string string
}.

(** [constructor(group = 'default', subgroup?, options?)]: the second
    argument is either the subgroup or, when it is an object, the options. *)
Definition constructor (group : option string)
    (subgroup : option (string + AmqpOptions)) (options : option AmqpOptions) : Amqp :=
  let g := default "default" group in
  match subgroup with
  | Some (inr o) =>
      {| channel := None; callback := None; group := g; subgroup := None;
         options := o; _consumers := ∅ |}
  | Some (inl s) =>
      {| channel := None; callback := None; group := g; subgroup := Some s;
         options := default empty_options options; _consumers := ∅ |}
  | None =>
      {| channel := None; callback := None; group := g; subgroup := None;
         options := default empty_options options; _consumers := ∅ |}
  end.

(** ** amqplib: messages, consumers, channel operations *)

Record Message : Type := mkMessage {
  content : Buffer;
  properties : Obj;
  deliveryTag : nat
}.

(** The two callbacks the broker hands to [channel.consume]. *)
Inductive ConsumerFn : Type :=
| ReplyConsumer
| EventConsumer (event : string).

#[global] Instance ConsumerFn_eq_dec : EqDecision ConsumerFn.
Proof. solve_decision. Defined.

Record Consumer : Type := mkConsumer {
  consumerTag : string;
  c_chan : nat;
  c_queue : string;
  c_fn : ConsumerFn;
  c_opts : option Obj
}.

Inductive ChanOp : Type :=
| AssertQueue (queue : string) (opts : option Obj)
| BindQueue (queue source pattern : string)
| AssertExchange (exchange type : string)
| Consume (queue : string) (fn : ConsumerFn) (opts : option Obj)
| Cancel (tag : JsVal)
| Publish (exchange routingKey : string) (content : Buffer) (props : Obj)
| SendToQueue (queue : JsVal) (content : Buffer) (props : Obj)
| Ack (m : Message)
| Nack (m : Message) (allUpTo requeue : option bool)
| Reject (m : Message) (requeue : option bool).

(** What a listener does with the response options it is given. *)
Inductive Affordance : Type :=
| DoReply (data : JsVal)
| DoAck
| DoNack (allUpTo requeue : option bool)
| DoReject (requeue : option bool).

(** Handlers registered with [connection.on] and timers set with
    [setTimeout]. *)
Inductive Handler : Type :=
| OnClose (urlOrConn : string) (opts : JsVal)
| OnError.

Inductive TimerAction : Type :=
| Reconnect (urlOrConn : string) (opts : JsVal).

(** Everything observable, in the order it happens. *)
Inductive Event : Type :=
| EvDial (url : string) (opts : JsVal)
| EvEmit (name : string) (arg : JsVal)
| EvSleep (ms : option Z)
| EvTimer (ms : option Z) (act : TimerAction)
| EvOn (conn : nat) (h : Handler)
| EvChannel (conn ch : nat)
| EvChan (ch : nat) (op : ChanOp)
| EvDispatch (event : string) (content : Buffer).

(** ** The world the broker runs in *)

(** Base's correlation entry: the deferred result it settles and the
    window it was given. *)
Record Entry : Type := mkEntry {
  e_promise : nat;
  e_window : JsVal
}.

Inductive Settlement : Type :=
| Resolved (value : JsVal)
| Rejected (reason : JsVal).

Record World : Type := mkWorld {
  this : Amqp;                          (* the broker instance *)
  heap : gmap nat Obj;                  (* objects passed by reference *)
  consumers : list Consumer;            (* consumers active at the server *)
  handlers : list (nat * Handler);      (* connection.on registrations *)
  responses : gmap string Entry;        (* Base: outstanding calls *)
  settled : gmap nat Settlement;        (* Base: settled deferreds *)
  trace : list Event;                   (* oldest event first *)
  dials : nat;                          (* amqp.connect calls so far *)
  ulids : nat;                          (* ulid() calls so far *)
  names : nat;                          (* server-generated names so far *)
  chans : nat;                          (* channels opened so far *)
  deferreds : nat                       (* deferreds created so far *)
}.

Definition set_this (f : Amqp -> Amqp) (w : World) : World :=
  mkWorld (f (this w)) (heap w) (consumers w) (handlers w) (responses w)
    (settled w) (trace w) (dials w) (ulids w) (names w) (chans w) (deferreds w).
Definition set_heap (f : gmap nat Obj -> gmap nat Obj) (w : World) : World :=
  mkWorld (this w) (f (heap w)) (consumers w) (handlers w) (responses w)
    (settled w) (trace w) (dials w) (ulids w) (names w) (chans w) (deferreds w).
Definition set_consumers (f : list Consumer -> list Consumer) (w : World) : World :=
  mkWorld (this w) (heap w) (f (consumers w)) (handlers w) (responses w)
    (settled w) (trace w) (dials w) (ulids w) (names w) (chans w) (deferreds w).
Definition set_handlers (f : list (nat * Handler) -> list (nat * Handler)) (w : World) : World :=
  mkWorld (this w) (heap w) (consumers w) (f (handlers w)) (responses w)
    (settled w) (trace w) (dials w) (ulids w) (names w) (chans w) (deferreds w).
Definition set_responses (f : gmap string Entry -> gmap string Entry) (w : World) : World :=
  mkWorld (this w) (heap w) (consumers w) (handlers w) (f (responses w))
    (settled w) (trace w) (dials w) (ulids w) (names w) (chans w) (deferreds w).
Definition set_settled (f : gmap nat Settlement -> gmap nat Settlement) (w : World) : World :=
  mkWorld (this w) (heap w) (consumers w) (handlers w) (responses w)
    (f (settled w)) (trace w) (dials w) (ulids w) (names w) (chans w) (deferreds w).
Definition log (ev : Event) (w : World) : World :=
  mkWorld (this w) (heap w) (consumers w) (handlers w) (responses w)
    (settled w) (trace w ++ [ev]) (dials w) (ulids w) (names w) (chans w) (deferreds w).
Definition tick_dials (w : World) : World :=
  mkWorld (this w) (heap w) (consumers w) (handlers w) (responses w)
    (settled w) (trace w) (S (dials w)) (ulids w) (names w) (chans w) (deferreds w).
Definition tick_ulids (w : World) : World :=
  mkWorld (this w) (heap w) (consumers w) (handlers w) (responses w)
    (settled w) (trace w) (dials w) (S (ulids w)) (names w) (chans w) (deferreds w).
Definition tick_names (w : World) : World :=
  mkWorld (this w) (heap w) (consumers w) (handlers w) (responses w)
    (settled w) (trace w) (dials w) (ulids w) (S (names w)) (chans w) (deferreds w).
Definition tick_chans (w : World) : World :=
  mkWorld (this w) (heap w) (consumers w) (handlers w) (responses w)
    (settled w) (trace w) (dials w) (ulids w) (names w) (S (chans w)) (deferreds w).
Definition tick_deferreds (w : World) : World :=
  mkWorld (this w) (heap w) (consumers w) (handlers w) (responses w)
    (settled w) (trace w) (dials w) (ulids w) (names w) (chans w) (S (deferreds w)).

(** A world holding a freshly constructed broker. *)
Definition fresh_world (b : Amqp) : World :=
  mkWorld b ∅ [] [] ∅ ∅ [] 0 0 0 0 0.

(** What lies outside the class: the serializer pair, the listeners
    behind [_handleMessage], [ulid], amqplib's [isFatalError], and the
    server (whether the k-th connection attempt is accepted, the k-th name
    it generates). *)
Record Env : Type := mkEnv {
  serialize : JsVal -> Buffer;
  deserialize : Buffer -> JsVal;
  ulid : nat -> string;
  isFatalError : JsVal -> bool;
  dial : nat -> string -> JsVal + nat;
  server_name : nat -> string;
  listeners : string -> Buffer -> list Affordance * option JsVal
}.

(** ** Programs

    [Await] is a suspension point: the request is handed to the
    environment and the continuation runs when the reply is there. [Spin]
    stands for a loop that is still running when its fuel is spent. *)

Inductive Request : Type :=
| ReqConnect (url : string) (opts : JsVal)
| ReqSleep (ms : option Z)
| ReqCreateChannel (conn : nat)
| ReqChan (ch : nat) (op : ChanOp).

Inductive Reply : Type :=
| RepFailed (e : JsVal)
| RepDone
| RepConnection (conn : nat)
| RepChannel (ch : nat)
| RepQueue (queue : string)
| RepConsume (tag : string).

Inductive prog (A : Type) : Type :=
| Ret (a : A)
| Throw (e : JsVal)
| Read (k : World -> prog A)
| Modify (f : World -> World) (k : prog A)
| Await (rq : Request) (k : Reply -> prog A)
| Spin.

Arguments Ret {A} a.
Arguments Throw {A} e.
Arguments Read {A} k.
Arguments Modify {A} f k.
Arguments Await {A} rq k.
Arguments Spin {A}.

Fixpoint bind {A B : Type} (p : prog A) (f : A -> prog B) : prog B :=
  match p with
  | Ret a => f a
  | Throw e => Throw e
  | Read k => Read (fun w => bind (k w) f)
  | Modify g k => Modify g (bind k f)
  | Await rq k => Await rq (fun rp => bind (k rp) f)
  | Spin => Spin
  end.

(** [try { p } catch (e) { h e }] *)
Fixpoint try_catch {A : Type} (p : prog A) (h : JsVal -> prog A) : prog A :=
  match p with
  | Ret a => Ret a
  | Throw e => h e
  | Read k => Read (fun w => try_catch (k w) h)
  | Modify g k => Modify g (try_catch k h)
  | Await rq k => Await rq (fun rp => try_catch (k rp) h)
  | Spin => Spin
  end.

#[global] Instance prog_ret : MRet prog := fun A a => Ret a.
#[global] Instance prog_bind : MBind prog := fun A B f p => bind p f.

Definition get : prog World := Read (fun w => Ret w).
Definition modify (f : World -> World) : prog unit := Modify f (Ret tt).

(** [await promise]: a rejection is thrown at the awaiting site. *)
Definition thrown_or (rp : Reply) : prog Reply :=
  match rp with
  | RepFailed e => Throw e
  | _ => Ret rp
  end.

Definition await (rq : Request) : prog Reply := Await rq thrown_or.

(** ** Running programs *)

Inductive outcome (A : Type) : Type :=
| Returned (a : A)      (* returned; for an async function: resolved *)
| Thrown (e : JsVal)    (* threw; for an async function: rejected *)
| Running.              (* not settled *)

Arguments Returned {A} a.
Arguments Thrown {A} e.
Arguments Running {A}.

(** A program run up to its first suspension point. *)
Inductive started (A : Type) : Type :=
| Done (r : outcome A)
| Suspended (rq : Request) (k : Reply -> prog A).

Arguments Done {A} r.
Arguments Suspended {A} rq k.

Fixpoint start {A : Type} (p : prog A) (w : World) : started A * World :=
  match p with
  | Ret a => (Done (Returned a), w)
  | Throw e => (Done (Thrown e), w)
  | Read k => start (k w) w
  | Modify f k => start k (f w)
  | Await rq k => (Suspended rq k, w)
  | Spin => (Done Running, w)
  end.

(** The tasks of a [Promise.all(xs.map(async x => ...))]: the values
    settled so far by position, the first rejection, and the suspended
    tasks in the order their requests were issued. *)
Record pool (A : Type) : Type := mkPool {
  slots : list (option A);
  failure : option JsVal;
  waiting : list (nat * Request * (Reply -> prog A))
}.

Arguments mkPool {A} slots failure waiting.
Arguments slots {A} p.
Arguments failure {A} p.
Arguments waiting {A} p.

Definition register {A : Type} (i : nat) (s : started A) (pl : pool A) : pool A :=
  match s with
  | Done (Returned a) => mkPool (<[i := Some a]> (slots pl)) (failure pl) (waiting pl)
  | Done (Thrown e) =>
      mkPool (slots pl) (Some (default e (failure pl))) (waiting pl)
  | Done Running => pl
  | Suspended rq k => mkPool (slots pl) (failure pl) (waiting pl ++ [(i, rq, k)])%list
  end.

Definition pool_result {A : Type} (pl : pool A) : outcome (list A) :=
  match failure pl with
  | Some e => Thrown e
  | None =>
      match mapM id (slots pl) with
      | Some vs => Returned vs
      | None => Running
      end
  end.

Section Broker.

Variable env : Env.

(** *** The environment's side of a request

    The channel is one that serves every request: queues and exchanges
    are asserted and bound as asked, an empty queue name is replaced by a
    generated one, every consumer gets a generated tag; a cancel with a
    value that is no string names no consumer. *)
Definition serve_chan (ch : nat) (op : ChanOp) (w : World) : Reply * World :=
  let w := log (EvChan ch op) w in
  match op with
  | AssertQueue "" _ => (RepQueue (server_name env (names w)), tick_names w)
  | AssertQueue q _ => (RepQueue q, w)
  | Consume q fn opts =>
      let tag := server_name env (names w) in
      (RepConsume tag,
       tick_names (set_consumers (fun cs => (cs ++ [mkConsumer tag ch q fn opts])%list) w))
  | Cancel (JStr tag) =>
      (RepDone,
       set_consumers
         (filter (fun c => ¬ (c_chan c = ch ∧ consumerTag c = tag))) w)
  | _ => (RepDone, w)
  end.

Definition serve (rq : Request) (w : World) : Reply * World :=
  match rq with
  | ReqConnect url opts =>
      let w' := tick_dials (log (EvDial url opts) w) in
      match dial env (dials w) url with
      | inl e => (RepFailed e, w')
      | inr conn => (RepConnection conn, w')
      end
  | ReqSleep ms => (RepDone, log (EvSleep ms) w)
  | ReqCreateChannel conn =>
      (RepChannel (chans w), tick_chans (log (EvChannel conn (chans w)) w))
  | ReqChan ch op => serve_chan ch op w
  end.

(** One task run to the end, every request served as it is issued. *)
Fixpoint run {A : Type} (p : prog A) (w : World) : outcome A * World :=
  match p with
  | Ret a => (Returned a, w)
  | Throw e => (Thrown e, w)
  | Read k => run (k w) w
  | Modify f k => run k (f w)
  | Await rq k => let '(rp, w') := serve rq w in run (k rp) w'
  | Spin => (Running, w)
  end.

(** [Promise.all] over async callbacks: each callback runs to its first
    [await] as [map] calls it; replies then arrive in the order the
    requests were issued, and a resumed task that awaits again queues
    behind the others. *)
Fixpoint start_all {A : Type} (i : nat) (ps : list (prog A)) (pl : pool A)
    (w : World) : pool A * World :=
  match ps with
  | [] => (pl, w)
  | p :: ps' =>
      let '(s, w') := start p w in
      start_all (S i) ps' (register i s pl) w'
  end.

Fixpoint drain {A : Type} (fuel : nat) (pl : pool A) (w : World) : pool A * World :=
  match fuel, waiting pl with
  | S fuel', (i, rq, k) :: rest =>
      let '(rp, w1) := serve rq w in
      let '(s, w2) := start (k rp) w1 in
      drain fuel' (register i s (mkPool (slots pl) (failure pl) rest)) w2
  | _, _ => (pl, w)
  end.

Definition promise_all {A : Type} (fuel : nat) (ps : list (prog A)) (w : World)
    : outcome (list A) * World :=
  let '(pl, w1) := start_all 0 ps (mkPool (replicate (length ps) None) None []) w in
  let '(pl', w2) := drain fuel pl w1 in
  (match waiting pl' with
   | [] => pool_result pl'
   | _ :: _ => match failure pl' with Some e => Thrown e | None => Running end
   end, w2).

(** *** What the class inherits from Base *)

(** Modelled from the spec: [emit], the notification channel of the Broker
    (Base.ts is not under src/). A notification is recorded in the trace. *)
Definition emit (name : string) (arg : JsVal) : prog unit :=
  modify (log (EvEmit name arg)).

(** Modelled from the spec: Base's [_awaitResponse]. It stores a
    correlation entry for the id and returns the deferred result that the
    entry settles. *)
Definition _awaitResponse (correlation : string) (expiration : JsVal) : prog nat :=
  w ← get;
  let p := deferreds w in
  modify tick_deferreds;;
  modify (set_responses <[correlation := mkEntry p expiration]>);;
  Ret p.

(** Modelled from the spec: Base's [_handleReply]. A reply whose id matches
    an outstanding entry resolves that entry with the decoded payload and
    removes it; any other reply is dropped. *)
Definition _handleReply (correlation : JsVal) (content : Buffer) : prog unit :=
  w ← get;
  match correlation with
  | JStr c =>
      match responses w !! c with
      | Some en =>
          modify (set_settled <[e_promise en := Resolved (deserialize env content)]>);;
          modify (set_responses (delete c))
      | None => Ret tt
      end
  | _ => Ret tt
  end.

(** *** The Amqp class *)

(** [get _channel()] *)
Definition _channel : prog nat :=
  w ← get;
  match channel (this w) with
  | Some ch => Ret ch
  | None => Throw (JError "no available amqp channel")
  end.

(** A channel method whose result is not awaited. *)
Definition chan_send (ch : nat) (op : ChanOp) : prog unit :=
  modify (fun w => (serve_chan ch op w).2).

Definition queue_name (b : Amqp) (event : string) : string :=
  group b +:+ ":" +:+
    (match truthy_str (subgroup b) with
     | Some sg => sg +:+ ":"
     | None => ""
     end +:+ event).

Definition createQueue (event : string) : prog string :=
  w ← get;
  let queue := queue_name (this w) event in
  ch ← _channel;
  await (ReqChan ch (AssertQueue queue (assert (options (this w)))));;
  ch ← _channel;
  w ← get;
  await (ReqChan ch (BindQueue queue (group (this w)) event));;
  Ret queue.

(** The response options handed to the listeners with a message: what
    each of [reply], [ack], [nack] and [reject] calls on the channel. *)
Definition response (msg : Message) (a : Affordance) : ChanOp :=
  match a with
  | DoReply data =>
      SendToQueue (prop (properties msg) "replyTo") (serialize env data)
        {[ "correlationId" := prop (properties msg) "correlationId" ]}
  | DoAck => Ack msg
  | DoNack allUpTo requeue => Nack msg allUpTo requeue
  | DoReject requeue => Reject msg requeue
  end.

Definition respond (msg : Message) (a : Affordance) : prog unit :=
  ch ← _channel;
  chan_send ch (response msg a).

Fixpoint respond_all (msg : Message) (acts : list Affordance) : prog unit :=
  match acts with
  | [] => Ret tt
  | a :: rest => respond msg a;; respond_all msg rest
  end.

(** Modelled from the spec: Base's [_handleMessage]. The message is
    dispatched to the listeners of the event, which use the response
    options they are given and then return or throw. *)
Definition _handleMessage (event : string) (msg : Message) : prog unit :=
  modify (log (EvDispatch event (content msg)));;
  respond_all msg (listeners env event (content msg)).1;;
  match (listeners env event (content msg)).2 with
  | Some e => Throw e
  | None => Ret tt
  end.

(** The callback [_subscribe] registers for an event. *)
Definition on_message (event : string) (msg : option Message) : prog unit :=
  match msg with
  | Some m =>
      try_catch (_handleMessage event m)
        (fun e =>
           ch ← _channel;
           chan_send ch (Reject m (Some false));;
           emit "error" e)
  | None => Ret tt
  end.

(** The callback [connect] registers on the reply queue. *)
Definition on_reply (msg : option Message) : prog unit :=
  match msg with
  | Some m => _handleReply (prop (properties m) "correlationId") (content m)
  | None => Ret tt
  end.

(** [this._consumers[event] = tag] and [delete this._consumers[event]] *)
Definition set_consumer (event tag : string) (b : Amqp) : Amqp :=
  mkAmqp (channel b) (callback b) (group b) (subgroup b) (options b)
    (object_set event tag (_consumers b)).

Definition delete_consumer (event : string) (b : Amqp) : Amqp :=
  mkAmqp (channel b) (callback b) (group b) (subgroup b) (options b)
    (delete event (_consumers b)).

Definition subscribe_one (event : string) : prog string :=
  queue ← createQueue event;
  ch ← _channel;
  w ← get;
  rp ← await (ReqChan ch (Consume queue (EventConsumer event) (consume (options (this w)))));
  match rp with
  | RepConsume tag =>
      modify (set_this (set_consumer event tag));;
      Ret tag
  | _ => Throw (JError "TypeError")
  end.

Definition _subscribe (fuel : nat) (events : list string) (w : World)
    : outcome (list string) * World :=
  promise_all fuel (map subscribe_one events) w.

Definition unsubscribe_one (event : string) : prog bool :=
  w ← get;
  if truthy (object_get (_consumers (this w)) event) then
    ch ← _channel;
    w ← get;
    await (ReqChan ch (Cancel (object_get (_consumers (this w)) event)));;
    modify (set_this (delete_consumer event));;
    Ret true
  else Ret false.

Definition _unsubscribe (fuel : nat) (events : list string) (w : World)
    : outcome (list bool) * World :=
  promise_all fuel (map unsubscribe_one events) w.

(** A parameter [options = {}]: an omitted argument is a new object. *)
Definition default_object (arg : option nat) : prog nat :=
  match arg with
  | Some l => Ret l
  | None =>
      w ← get;
      let l := fresh (dom (heap w)) in
      modify (set_heap <[l := ∅]>);;
      Ret l
  end.

Definition deref (w : World) (l : nat) : Obj := default ∅ (heap w !! l).

Definition publish (event : string) (data : JsVal) (options : option nat) : prog unit :=
  o ← default_object options;
  ch ← _channel;
  w ← get;
  chan_send ch (Publish (group (this w)) event (serialize env data) (deref w o)).

Definition next_ulid : prog string :=
  w ← get;
  modify tick_ulids;;
  Ret (ulid env (ulids w)).

Definition js_opt_string (s : option string) : JsVal :=
  match s with
  | Some t => JStr t
  | None => JUndefined
  end.

(** [typeof x === 'string' ? parseInt(x, 10) : x] *)
Definition expiration_window (x : JsVal) : JsVal :=
  match x with
  | JStr s => parseInt10 s
  | _ => x
  end.

Definition call (method : string) (data : JsVal) (options : option nat) : prog nat :=
  o ← default_object options;
  correlation ← next_ulid;
  w ← get;
  modify (set_heap <[o :=
    object_assign (deref w o)
      [("replyTo", js_opt_string (callback (this w)));
       ("correlationId", JStr correlation)]]>);;
  publish method data (Some o);;
  w ← get;
  _awaitResponse correlation (expiration_window (prop (deref w o) "expiration")).

(** [`amqp://${urlOrConn}`] *)
Definition amqp_url (urlOrConn : string) : string := "amqp://" +:+ urlOrConn.

(** The delay Node.js gives a timer: a delay that is missing, below 1 or
    above 2147483647 becomes 1 millisecond. *)
Definition timer_delay (ms : option Z) : Z :=
  match ms with
  | Some n => if (1 <=? n) && (n <=? 2147483647) then n else 1
  | None => 1
  end.

(** [connection.on(name, handler)] *)
Definition connection_on (conn : nat) (h : Handler) : prog unit :=
  modify (fun w => set_handlers (fun hs => (hs ++ [(conn, h)])%list) (log (EvOn conn h) w)).

(** The [while (!connection)] loop of [connect]; [fuel] bounds the number
    of iterations, and a loop still running when it is spent is [Spin]. *)
Fixpoint connect_loop (fuel : nat) (urlOrConn : string) (opts : JsVal) : prog nat :=
  match fuel with
  | O => Spin
  | S fuel' =>
      attempt ←
        try_catch
          (rp ← await (ReqConnect (amqp_url urlOrConn) opts); Ret (Some rp))
          (fun e =>
             emit "close" e;;
             w ← get;
             await (ReqSleep (reconnectTimeout (options (this w))));;
             Ret None);
      match attempt with
      | None => connect_loop fuel' urlOrConn opts
      | Some (RepConnection connection) =>
          connection_on connection (OnClose urlOrConn opts);;
          connection_on connection OnError;;
          Ret connection
      | Some _ => Throw (JError "TypeError")
      end
  end.

Definition set_channel (ch : nat) (b : Amqp) : Amqp :=
  mkAmqp (Some ch) (callback b) (group b) (subgroup b) (options b) (_consumers b).

Definition set_callback (q : string) (b : Amqp) : Amqp :=
  mkAmqp (channel b) (Some q) (group b) (subgroup b) (options b) (_consumers b).

Definition connect (fuel : nat) (urlOrConn : string + nat) (opts : JsVal) : prog nat :=
  connection ←
    match urlOrConn with
    | inr conn => Ret conn
    | inl url => connect_loop fuel url opts
    end;
  rp ← await (ReqCreateChannel connection);
  match rp with
  | RepChannel ch =>
      modify (set_this (set_channel ch));;
      rp ← await (ReqChan ch (AssertQueue "" (Some {[ "exclusive" := JBool true ]})));
      match rp with
      | RepQueue q =>
          modify (set_this (set_callback q));;
          chan_send ch (Consume q ReplyConsumer (Some {[ "noAck" := JBool true ]}));;
          w ← get;
          await (ReqChan ch (AssertExchange (group (this w)) "direct"));;
          Ret connection
      | _ => Throw (JError "TypeError")
      end
  | _ => Throw (JError "TypeError")
  end.

(** The handlers [connect] attaches to a connection. *)
Definition handle (h : Handler) (err : JsVal) : prog unit :=
  match h with
  | OnClose urlOrConn opts =>
      if negb (isFatalError env err) then
        emit "close" err;;
        w ← get;
        modify (log (EvTimer (reconnectTimeout (options (this w)))
                       (Reconnect urlOrConn opts)))
      else Ret tt
  | OnError => emit "error" err
  end.

Definition is_close (h : Handler) : bool :=
  match h with
  | OnClose _ _ => true
  | OnError => false
  end.

Definition selected (conn : nat) (close : bool) (ch : nat * Handler) : option Handler :=
  if decide (ch.1 = conn /\ is_close ch.2 = close) then Some ch.2 else None.

Fixpoint handle_all (hs : list Handler) (err : JsVal) : prog unit :=
  match hs with
  | [] => Ret tt
  | h :: rest => handle h err;; handle_all rest err
  end.

(** The connection emits ['close'] ([close = true]) or ['error']: the
    handlers registered for that event on that connection run in order. *)
Definition connection_emit (conn : nat) (close : bool) (err : JsVal) : prog unit :=
  w ← get;
  handle_all (omap (selected conn close) (handlers w)) err.

(** amqplib closes the connection because of [err] (a close sent by the
    server, a socket error, a missed heartbeat): it emits ['error'] first
    when [isFatalError(err)], and then ['close']. *)
Definition connection_closes (conn : nat) (err : JsVal) : prog unit :=
  (if isFatalError env err then connection_emit conn false err else Ret tt);;
  connection_emit conn true err.

(** A timer set by the close handler fires. *)
Definition fire (fuel : nat) (act : TimerAction) : prog nat :=
  match act with
  | Reconnect urlOrConn opts => connect fuel (inl urlOrConn) opts
  end.

(** The server delivers a message to the consumer with the given tag. *)
Definition deliver (ch : nat) (tag : string) (msg : option Message) : prog unit :=
  w ← get;
  match list_find (fun c => c_chan c = ch ∧ consumerTag c = tag) (consumers w) with
  | Some (_, c) =>
      match c_fn c with
      | ReplyConsumer => on_reply msg
      | EventConsumer event => on_message event msg
      end
  | None => Ret tt
  end.

End Broker.

Arguments serve_chan : simpl never.

(** * Specification functions

    The worlds and pools that the programs above lead to, written as
    functions, and the concrete environment used for the examples. *)

(** ** Running a sequence, one round of the scheduler *)

Definition run_then {A B : Type} (env : Env) (r : outcome A * World)
    (f : A -> prog B) : outcome B * World :=
  match r.1 with
  | Returned a => run env (f a) r.2
  | Thrown e => (Thrown e, r.2)
  | Running => (Running, r.2)
  end.

Definition no_channel : JsVal := JError "no available amqp channel".

(** The reply to one suspended task arrives: the task runs to its next
    suspension point. *)
Definition resume {A : Type} (env : Env) (pw : pool A * World)
    (t : nat * Request * (Reply -> prog A)) : pool A * World :=
  let '(rp, w1) := serve env t.1.2 pw.2 in
  let '(s, w2) := start (t.2 rp) w1 in
  (register t.1.1 s pw.1, w2).

Definition logs (evs : list Event) (w : World) : World :=
  fold_left (fun w ev => log ev w) evs w.

(** ** [_unsubscribe] *)

Section UnsubscribeSpec.

Variable ch : nat.
(** The consumer map when [_unsubscribe] is called. *)
Variable m0 : gmap string string.

(** The tag recorded for an event, if there is one and it is not the
    empty string. *)
Definition recorded (event : string) : option string := truthy_str (m0 !! event).

(** What is left of [unsubscribe_one] once the cancel request is out. *)
Definition unsubscribe_resume (event : string) : Reply -> prog bool :=
  fun rp =>
    thrown_or rp ≫= fun _ => modify (set_this (delete_consumer event));; Ret true.

Definition cancelled (tag event : string) (w : World) : World :=
  set_this (delete_consumer event)
    (set_consumers (filter (fun c => ¬ (c_chan c = ch ∧ consumerTag c = tag)))
       (log (EvChan ch (Cancel (JStr tag))) w)).

Fixpoint unsub_waiting (i : nat) (es : list string)
    : list (nat * Request * (Reply -> prog bool)) :=
  match es with
  | [] => []
  | e :: es' =>
      match recorded e with
      | Some tag => [(i, ReqChan ch (Cancel (JStr tag)), unsubscribe_resume e)]
      | None => []
      end ++ unsub_waiting (S i) es'
  end.

Fixpoint unsub_slots (started_only : bool) (i : nat) (es : list string)
    (sl : list (option bool)) : list (option bool) :=
  match es with
  | [] => sl
  | e :: es' =>
      unsub_slots started_only (S i) es'
        (match recorded e with
         | Some _ => if started_only then sl else <[i := Some true]> sl
         | None => if started_only then <[i := Some false]> sl else sl
         end)
  end.

Fixpoint unsub_world (es : list string) (w : World) : World :=
  match es with
  | [] => w
  | e :: es' =>
      unsub_world es'
        (match recorded e with
         | Some tag => cancelled tag e w
         | None => w
         end)
  end.

End UnsubscribeSpec.

(** ** [call] *)

(** The options object of a call once [replyTo] and [correlationId] are
    assigned. *)
Definition tagged (o : Obj) (callback : option string) (correlation : string) : Obj :=
  <["correlationId" := JStr correlation]> (<["replyTo" := js_opt_string callback]> o).

(** The world after [call] on a live channel [ch], where [l] is the options
    object, [c] the correlation id and [w] the world once the default
    argument is in place. *)
Definition call_world (env : Env) (ch : nat) (method : string) (data : JsVal)
    (l : nat) (c : string) (w : World) : World :=
  let o := tagged (deref w l) (callback (this w)) c in
  set_responses
    <[c := mkEntry (deferreds w) (expiration_window (prop o "expiration"))]>
    (tick_deferreds
       (log (EvChan ch (Publish (group (this w)) method (serialize env data) o))
          (set_heap <[l := o]> (tick_ulids w)))).

Definition with_default (arg : option nat) (w : World) : nat * World :=
  match arg with
  | Some l => (l, w)
  | None => (fresh (dom (heap w)), set_heap <[fresh (dom (heap w)) := ∅]> w)
  end.

(** ** [connect] *)

Section ConnectSpec.

Variable env : Env.
Variable urlOrConn : string.
Variable opts : JsVal.

(** The world after a refused attempt: the attempt, the [close]
    notification, the pause. *)
Definition refused (e : JsVal) (w : World) : World :=
  log (EvSleep (reconnectTimeout (options (this w))))
    (log (EvEmit "close" e) (tick_dials (log (EvDial (amqp_url urlOrConn) opts) w))).

Fixpoint retried (errs : list JsVal) (w : World) : World :=
  match errs with
  | [] => w
  | e :: errs' => retried errs' (refused e w)
  end.

(** The world after an accepted attempt: the attempt and the two handlers. *)
Definition accepted (conn : nat) (w : World) : World :=
  set_handlers (fun hs => hs ++ [(conn, OnError)])
    (log (EvOn conn OnError)
       (set_handlers (fun hs => hs ++ [(conn, OnClose urlOrConn opts)])
          (log (EvOn conn (OnClose urlOrConn opts))
             (tick_dials (log (EvDial (amqp_url urlOrConn) opts) w))))).

(** The world after the channel, the callback queue and the exchange are
    set up on a connection. *)
Definition channel_opened (conn : nat) (w : World) : World :=
  set_this (set_channel (chans w)) (tick_chans (log (EvChannel conn (chans w)) w)).

Definition callback_declared (w : World) : World :=
  set_this (set_callback (server_name env (names w)))
    (tick_names
       (log (EvChan (default 0%nat (channel (this w)))
               (AssertQueue "" (Some {[ "exclusive" := JBool true ]}))) w)).

Definition callback_consumed (w : World) : World :=
  let ch := default 0%nat (channel (this w)) in
  let q := default "" (callback (this w)) in
  let op := Consume q ReplyConsumer (Some {[ "noAck" := JBool true ]}) in
  tick_names
    (set_consumers
       (fun cs => cs ++ [mkConsumer (server_name env (names w)) ch q ReplyConsumer
                           (Some {[ "noAck" := JBool true ]})])
       (log (EvChan ch op) w)).

Definition exchange_asserted (w : World) : World :=
  log (EvChan (default 0%nat (channel (this w)))
         (AssertExchange (group (this w)) "direct")) w.

Definition set_up (conn : nat) (w : World) : World :=
  exchange_asserted (callback_consumed (callback_declared (channel_opened conn w))).

End ConnectSpec.

(** ** [_subscribe] *)

Section SubscribeSpec.

Variable env : Env.
Variable ch : nat.
(** The broker when [_subscribe] is called; [_subscribe] changes nothing
    of it but the consumer map. *)
Variable b : Amqp.

(** What is left of [subscribe_one] after each of its three requests. *)
Definition bind_tail (event queue : string) : prog string :=
  ch ← _channel;
  w ← get;
  await (ReqChan ch (BindQueue queue (group (this w)) event));;
  Ret queue.

Definition record_tail (event : string) (rp : Reply) : prog string :=
  match rp with
  | RepConsume tag => modify (set_this (set_consumer event tag));; Ret tag
  | _ => Throw (JError "TypeError")
  end.

Definition consume_tail (event queue : string) : prog string :=
  ch ← _channel;
  w ← get;
  rp ← await (ReqChan ch (Consume queue (EventConsumer event) (consume (options (this w)))));
  record_tail event rp.

Definition after_assert (event : string) : Request * (Reply -> prog string) :=
  (ReqChan ch (AssertQueue (queue_name b event) (assert (options b))),
   fun rp => (thrown_or rp ≫= fun _ => bind_tail event (queue_name b event))
             ≫= consume_tail event).

Definition after_bind (event : string) : Request * (Reply -> prog string) :=
  (ReqChan ch (BindQueue (queue_name b event) (group b) event),
   fun rp => (thrown_or rp ≫= fun _ => Ret (queue_name b event)) ≫= consume_tail event).

Definition after_consume (event : string) : Request * (Reply -> prog string) :=
  (ReqChan ch (Consume (queue_name b event) (EventConsumer event) (consume (options b))),
   fun rp => thrown_or rp ≫= record_tail event).

(** The suspended tasks of the events, numbered from [i]. *)
Fixpoint tasks (i : nat) (f : string -> Request * (Reply -> prog string))
    (es : list string) : list (nat * Request * (Reply -> prog string)) :=
  match es with
  | [] => []
  | e :: es' => (i, (f e).1, (f e).2) :: tasks (S i) f es'
  end.

(** The world after the consumer of one event is registered and recorded. *)
Definition consumed_one (event : string) (w : World) : World :=
  set_this (set_consumer event (server_name env (names w)))
    (tick_names
       (set_consumers
          (fun cs => cs ++ [mkConsumer (server_name env (names w)) ch (queue_name b event)
                              (EventConsumer event) (consume (options b))])
          (log (EvChan ch (Consume (queue_name b event) (EventConsumer event)
                             (consume (options b)))) w))).

Fixpoint consumed (es : list string) (w : World) : World :=
  match es with
  | [] => w
  | e :: es' => consumed es' (consumed_one e w)
  end.

Fixpoint filled (i n : nat) (es : list string) (sl : list (option string))
    : list (option string) :=
  match es with
  | [] => sl
  | _ :: es' => filled (S i) (S n) es' (<[i := Some (server_name env n)]> sl)
  end.

Definition new_consumer (event tag : string) : Consumer :=
  mkConsumer tag ch (queue_name b event) (EventConsumer event) (consume (options b)).

End SubscribeSpec.

(** The consumers subscribed to an event. *)
Definition event_consumers (event : string) (w : World) : list Consumer :=
  filter (fun c => c_fn c = EventConsumer event) (consumers w).


(** ** A concrete environment

    A server that refuses the first two connection attempts, names queues
    and consumers "amq.gen-0", "amq.gen-1", ..., and a listener that throws
    on the payload "boom" and acknowledges every other message. *)

Definition demo_env : Env :=
  {| serialize := fun v => match v with JStr s => list_ascii_of_string s | _ => [] end;
     deserialize := fun b => JStr (string_of_list_ascii b);
     ulid := fun n => pretty n;
     isFatalError := fun e => negb (bool_decide (e = JError "CONNECTION_FORCED"));
     dial := fun k _ => if (k <? 2)%nat then inl (JError "ECONNREFUSED") else inr k;
     server_name := fun n => "amq.gen-" +:+ pretty n;
     listeners := fun _ b =>
       if bool_decide (string_of_list_ascii b = "boom")
       then ([], Some (JError "boom")) else ([DoAck], None) |}.

(** [new Amqp('g', 'sg')] and [new Amqp('g')] *)
Definition demo_broker : Amqp := constructor (Some "g") (Some (inl "sg")) None.
Definition plain_broker : Amqp := constructor (Some "g") None None.

(** The world after [connect('localhost')]. *)
Definition demo_connected : World :=
  (run demo_env (connect demo_env 3 (inl "localhost") JUndefined) (fresh_world demo_broker)).2.

(** The world after ['a'] is subscribed once, and twice. *)
Definition demo_subscribed : World := (_subscribe demo_env 3 ["a"] demo_connected).2.

Definition reply_consumer : Consumer :=
  mkConsumer "amq.gen-1" 0 "amq.gen-0" ReplyConsumer (Some {[ "noAck" := JBool true ]}).

Definition a_consumer : Consumer :=
  mkConsumer "amq.gen-2" 0 "g:sg:a" (EventConsumer "a") None.

Definition boom : Message := mkMessage (list_ascii_of_string "boom") ∅ 1.
Definition fine : Message := mkMessage (list_ascii_of_string "fine") ∅ 2.

Definition refusals : list JsVal := [JError "ECONNREFUSED"; JError "ECONNREFUSED"].

Definition demo_with_options : World :=
  set_heap <[0%nat := {[ "expiration" := JStr "5000" ]}]> demo_connected.

(** * The rate-limit mutex

    [RatelimitMutex.claim(route, signal)]: the promise it returns, the
    abort signal it may be given and what it calls, as one [State]. The
    backend's [getTimeout] and the moments at which the signal is aborted
    are given by a [Backend]; [pause(ms)] and
    [InternalError.REQUEST_CANCELLED] come from modules outside the class. *)

Module RatelimitMutex.

Inductive Step : Type :=
| AddListener
| RemoveListener
| GetTimeout (route : string)
| Pause (ms : Z).

(** An [AbortSignal]: whether it is aborted, and whether the listener of
    this [claim] is registered on it. *)
Record Signal : Type := mkSignal {
  aborted : bool;
  listening : bool
}.

Record State : Type := mkState {
  result : option Settlement;   (* the promise of this claim; None: pending *)
  signal : option Signal;       (* the signal argument; None: undefined or null *)
  polls : nat;                  (* getTimeout calls so far *)
  awaits : nat;                 (* suspensions so far *)
  steps : list Step             (* what claim did, oldest first *)
}.

Record Backend : Type := mkBackend {
  getTimeout : nat -> string -> JsVal + Z;   (* the k-th call throws or returns *)
  aborts_during : nat -> bool;               (* abort is signalled during the k-th suspension *)
  REQUEST_CANCELLED : string
}.

Definition set_result (r : option Settlement) (st : State) : State :=
  mkState r (signal st) (polls st) (awaits st) (steps st).
Definition set_signal (s : option Signal) (st : State) : State :=
  mkState (result st) s (polls st) (awaits st) (steps st).
Definition note (x : Step) (st : State) : State :=
  mkState (result st) (signal st) (polls st) (awaits st) (steps st ++ [x]).
Definition tick_polls (st : State) : State :=
  mkState (result st) (signal st) (S (polls st)) (awaits st) (steps st).
Definition tick_awaits (st : State) : State :=
  mkState (result st) (signal st) (polls st) (S (awaits st)) (steps st).

(** [resolve()] and [reject(e)]: only the first call settles the promise. *)
Definition settle (r : Settlement) (st : State) : State :=
  match result st with
  | None => set_result (Some r) st
  | Some _ => st
  end.

(** [signal?.aborted] *)
Definition is_aborted (st : State) : bool :=
  match signal st with
  | Some s => aborted s
  | None => false
  end.

Section Claim.

Variable be : Backend.

(** The signal is aborted: a registered listener rejects the promise. *)
Definition abort (st : State) : State :=
  match signal st with
  | Some s =>
      if aborted s then st
      else
        let st' := set_signal (Some (mkSignal true (listening s))) st in
        if listening s
        then settle (Rejected (JError (REQUEST_CANCELLED be))) st'
        else st'
  | None => st
  end.

(** A suspension point: the signal may be aborted while [claim] waits. *)
Definition suspend (st : State) : State :=
  tick_awaits (if aborts_during be (awaits st) then abort st else st).

(** [await this.getTimeout(route)] *)
Definition poll (route : string) (st : State) : (JsVal + Z) * State :=
  (getTimeout be (polls st) route, suspend (tick_polls (note (GetTimeout route) st))).

(** [await pause(timeout)]; [pause] is the timer promise of the util module:
    it resolves once the delay is over and never rejects. *)
Definition pause (ms : Z) (st : State) : State := suspend (note (Pause ms) st).

(** The [while] loop; [None] when the fuel is spent, otherwise whether the
    loop ended or [getTimeout] threw. *)
Fixpoint poll_loop (fuel : nat) (route : string) (timeout : Z) (st : State)
    : option (option JsVal) * State :=
  match fuel with
  | O => (None, st)
  | S fuel' =>
      if (0 <? timeout) && negb (is_aborted st) then
        match poll route (pause timeout st) with
        | (inl e, st') => (Some (Some e), st')
        | (inr t, st') => poll_loop fuel' route t st'
        end
      else (Some None, st)
  end.

Definition add_listener (st : State) : State :=
  match signal st with
  | Some s => note AddListener (set_signal (Some (mkSignal (aborted s) true)) st)
  | None => st
  end.

Definition remove_listener (st : State) : State :=
  match signal st with
  | Some s => note RemoveListener (set_signal (Some (mkSignal (aborted s) false)) st)
  | None => st
  end.

(** [claim]: whether the executor has run to its end, and the state. *)
Definition claim (fuel : nat) (route : string) (st : State) : bool * State :=
  match poll route (add_listener st) with
  | (inl e, st1) => (true, settle (Rejected e) st1)
  | (inr t, st1) =>
      match poll_loop fuel route t st1 with
      | (None, st2) => (false, st2)
      | (Some (Some e), st2) => (true, settle (Rejected e) st2)
      | (Some None, st2) => (true, settle (Resolved JUndefined) (remove_listener st2))
      end
  end.

(** The state after the rounds of the loop in which nothing is aborted:
    every round pauses for the current timeout and polls the next one. *)
Definition round (route : string) (timeout : Z) (st : State) : State :=
  tick_awaits (tick_polls (note (GetTimeout route) (tick_awaits (note (Pause timeout) st)))).

Fixpoint rounds (route : string) (timeouts : list Z) (st : State) : State :=
  match timeouts with
  | [] => st
  | t :: rest => rounds route rest (round route t st)
  end.

End Claim.

(** A new promise, [claim] not yet called. *)
Definition initial (s : option Signal) : State := mkState None s 0 0 [].

(** A step that is only taken when a signal was given. *)
Definition if_signal (st : State) (x : Step) : list Step :=
  match signal st with
  | Some _ => [x]
  | None => []
  end.

(** What [claim] has done after polling, waiting for each of [ts] and
    polling again after each wait. *)
Definition polled (route : string) (ts : list Z) : list Step :=
  GetTimeout route :: flat_map (fun t => [Pause t; GetTimeout route]) ts.

(** Backends for the examples: two positive timeouts and then none; a
    failure of the second poll; an abort during the first wait, and during
    the first poll. *)
Definition clearing : Backend :=
  mkBackend (fun k _ => inr (if (k <? 2)%nat then 100 else 0)) (fun _ => false) "cancelled".
Definition failing : Backend :=
  mkBackend (fun k _ => if (k <? 1)%nat then inr 100 else inl (JError "backend"))
    (fun _ => false) "cancelled".
Definition cancelling : Backend :=
  mkBackend (fun _ _ => inr 100) (fun k => (k =? 1)%nat) "cancelled".
Definition cancelling_early : Backend :=
  mkBackend (fun _ _ => inr 100) (fun k => (k =? 0)%nat) "cancelled".

End RatelimitMutex.

(** * Properties *)

(** ** Running a sequence *)

Lemma run_bind {A B : Type} (env : Env) (p : prog A) (f : A -> prog B) (w : World) :
  run env (p ≫= f) w = run_then env (run env p w) f.
Proof.
  unfold mbind, prog_bind. revert w.
  induction p as [a | e | k IH | g k IH | rq k IH | ]; intros w; simpl.
  - unfold run_then; simpl. reflexivity.
  - reflexivity.
  - apply IH.
  - apply IH.
  - destruct (serve env rq w) as [rp w']. apply IH.
  - reflexivity.
Qed.

Lemma run_try_catch {A : Type} (env : Env) (p : prog A) (h : JsVal -> prog A) (w : World) :
  run env (try_catch p h) w =
  match (run env p w).1 with
  | Thrown e => run env (h e) (run env p w).2
  | _ => run env p w
  end.
Proof.
  revert w.
  induction p as [a | e | k IH | g k IH | rq k IH | ]; intros w; simpl.
  - reflexivity.
  - reflexivity.
  - apply IH.
  - apply IH.
  - destruct (serve env rq w) as [rp w']. apply IH.
  - reflexivity.
Qed.

(** ** The channel accessor and the queue name *)

Lemma run_channel_live (env : Env) (w : World) (ch : nat) :
  channel (this w) = Some ch -> run env _channel w = (Returned ch, w).
Proof. intros H. unfold _channel. simpl. rewrite H. reflexivity. Qed.

Lemma start_channel_none {A : Type} (f : nat -> prog A) (w : World) :
  channel (this w) = None ->
  start (_channel ≫= f) w = (Done (Thrown no_channel), w).
Proof. intros H. unfold _channel. simpl. rewrite H. reflexivity. Qed.

Lemma append_assoc (a b c : string) : (a +:+ b) +:+ c = a +:+ b +:+ c.
Proof.
  induction a as [|x a IH]; [reflexivity|].
  change (String x ((a +:+ b) +:+ c) = String x (a +:+ b +:+ c)).
  rewrite IH. reflexivity.
Qed.

Lemma queue_name_cases (b : Amqp) (event : string) :
  queue_name b event =
  match subgroup b with
  | Some sg =>
      if decide (sg = "") then group b +:+ ":" +:+ event
      else group b +:+ ":" +:+ sg +:+ ":" +:+ event
  | None => group b +:+ ":" +:+ event
  end.
Proof.
  unfold queue_name. destruct (subgroup b) as [sg|]; simpl; [|reflexivity].
  destruct (decide (sg = "")) as [->|Hne]; [reflexivity|].
  destruct sg as [|c sg]; [congruence|]. simpl truthy_str.
  rewrite append_assoc. reflexivity.
Qed.

Lemma queue_name_nonempty (b : Amqp) (event : string) : queue_name b event <> "".
Proof. unfold queue_name. destruct (group b); cbv [String.append]; discriminate. Qed.

Lemma serve_assert_named (env : Env) (ch : nat) (q : string) (o : option Obj) (w : World) :
  q <> "" ->
  serve_chan env ch (AssertQueue q o) w = (RepQueue q, log (EvChan ch (AssertQueue q o)) w).
Proof. intros Hq. destruct q; [congruence | reflexivity]. Qed.

Lemma run_createQueue (env : Env) (w : World) (ch : nat) (event : string) :
  channel (this w) = Some ch ->
  run env (createQueue event) w =
    (Returned (queue_name (this w) event),
     log (EvChan ch (BindQueue (queue_name (this w) event) (group (this w)) event))
       (log (EvChan ch (AssertQueue (queue_name (this w) event)
                          (assert (options (this w))))) w)).
Proof.
  intros H. unfold createQueue, _channel. simpl. rewrite H. simpl.
  rewrite serve_assert_named by apply queue_name_nonempty.
  simpl. rewrite H. reflexivity.
Qed.

(** C2. The queue of an event is named from the group, the subgroup (when
    there is one; [undefined] and the empty string both count as none) and
    the event: "g:ev" without a subgroup and "g:sg:ev" with subgroup sg.
    [createQueue] asserts the queue under that name and binds it to the
    exchange [group] with the event name as routing key. *)
Theorem createQueue_name_deterministic (env : Env) (w : World) (ch : nat) (event : string) :
  channel (this w) = Some ch ->
  let g := group (this w) in
  let q := match subgroup (this w) with
           | Some sg =>
               if decide (sg = "") then g +:+ ":" +:+ event
               else g +:+ ":" +:+ sg +:+ ":" +:+ event
           | None => g +:+ ":" +:+ event
           end in
  run env (createQueue event) w =
    (Returned q,
     log (EvChan ch (BindQueue q g event))
       (log (EvChan ch (AssertQueue q (assert (options (this w))))) w)).
Proof.
  intros H g q. rewrite (run_createQueue env w ch event H).
  rewrite queue_name_cases. reflexivity.
Qed.

Lemma createQueue_name_witness :
  channel (this demo_connected) = Some 0%nat /\
  run demo_env (createQueue "ev") demo_connected =
    (Returned "g:sg:ev",
     log (EvChan 0 (BindQueue "g:sg:ev" "g" "ev"))
       (log (EvChan 0 (AssertQueue "g:sg:ev" None)) demo_connected)).
Proof.
  split; [reflexivity|].
  exact (createQueue_name_deterministic demo_env demo_connected 0 "ev" eq_refl).
Defined.

(** ** Before [connect] has completed *)

Lemma start_all_thrown {A : Type} (env : Env) (e : JsVal) (ps : list (prog A)) :
  forall (i : nat) (pl : pool A) (w : World),
  Forall (fun p => start p w = (Done (Thrown e), w)) ps ->
  start_all i ps pl w =
    (match ps with
     | [] => pl
     | _ :: _ => mkPool (slots pl) (Some (default e (failure pl))) (waiting pl)
     end, w).
Proof.
  induction ps as [|p ps IH]; intros i pl w Hall; simpl; [reflexivity|].
  inversion Hall as [|? ? Hp Hps]; subst. rewrite Hp.
  rewrite (IH (S i) _ w Hps). destruct ps; simpl; [reflexivity|].
  destruct pl as [s [f|] q]; reflexivity.
Qed.

Lemma start_createQueue_none (event : string) (w : World) :
  channel (this w) = None ->
  start (createQueue event) w = (Done (Thrown no_channel), w).
Proof. intros H. unfold createQueue, _channel. simpl. rewrite H. reflexivity. Qed.

Lemma start_subscribe_one_none (event : string) (w : World) :
  channel (this w) = None ->
  start (subscribe_one event) w = (Done (Thrown no_channel), w).
Proof.
  intros H. unfold subscribe_one, createQueue, _channel. simpl. rewrite H. reflexivity.
Qed.

(** C9. While the broker has no channel, [publish] throws, [createQueue]
    rejects and [_subscribe] (of at least one event) rejects, each with the
    error of the [_channel] accessor, 'no available amqp channel'. The
    failure is reached before any suspension point, nothing is sent, no
    notification is emitted and nothing is scheduled: the trace is
    unchanged. *)
Theorem no_channel_fails_at_once (env : Env) (w : World) (event : string)
    (data : JsVal) (options : option nat) (events : list string) (fuel : nat) :
  channel (this w) = None ->
  start (publish env event data options) w =
    (Done (Thrown (JError "no available amqp channel")),
     match options with
     | Some _ => w
     | None => set_heap <[fresh (dom (heap w)) := ∅]> w
     end) /\
  start (createQueue event) w =
    (Done (Thrown (JError "no available amqp channel")), w) /\
  _subscribe env fuel (event :: events) w =
    (Thrown (JError "no available amqp channel"), w).
Proof.
  intros H. split; [|split].
  - unfold publish, default_object, _channel. destruct options as [l|]; simpl.
    + rewrite H. reflexivity.
    + rewrite H. reflexivity.
  - apply start_createQueue_none, H.
  - unfold _subscribe, promise_all.
    rewrite (start_all_thrown env no_channel (map subscribe_one (event :: events)) 0 _ w).
    + simpl. destruct fuel; reflexivity.
    + apply List.Forall_map, Forall_forall. intros e _.
      apply start_subscribe_one_none, H.
Qed.

Lemma no_channel_witness :
  channel (this (fresh_world demo_broker)) = None /\
  start (createQueue "ev") (fresh_world demo_broker) =
    (Done (Thrown (JError "no available amqp channel")), fresh_world demo_broker) /\
  _subscribe demo_env 3 ["ev"] (fresh_world demo_broker) =
    (Thrown (JError "no available amqp channel"), fresh_world demo_broker).
Proof.
  split; [reflexivity|].
  destruct (no_channel_fails_at_once demo_env (fresh_world demo_broker) "ev"
              (JStr "x") None [] 3 eq_refl) as (_ & Hq & Hs).
  split; [exact Hq | exact Hs].
Defined.

(** ** One round of the scheduler *)

Lemma register_waiting {A : Type} (i : nat) (s : started A) (sl : list (option A))
    (f : option JsVal) (q1 q2 : list (nat * Request * (Reply -> prog A))) :
  register i s (mkPool sl f (q1 ++ q2)) =
  mkPool (slots (register i s (mkPool sl f q2)))
         (failure (register i s (mkPool sl f q2)))
         (q1 ++ waiting (register i s (mkPool sl f q2))).
Proof.
  destruct s as [[a|e|]|rq k]; simpl; try reflexivity.
  rewrite <- app_assoc. reflexivity.
Qed.

Lemma drain_round {A : Type} (env : Env)
    (front : list (nat * Request * (Reply -> prog A))) :
  forall (rest : list (nat * Request * (Reply -> prog A)))
         (sl : list (option A)) (f : option JsVal) (w : World) (fuel : nat),
  drain env (length front + fuel) (mkPool sl f (front ++ rest)) w =
  drain env fuel (fold_left (resume env) front (mkPool sl f rest, w)).1
                 (fold_left (resume env) front (mkPool sl f rest, w)).2.
Proof.
  induction front as [|[[i rq] k] front IH]; intros rest sl f w fuel.
  - reflexivity.
  - simpl. unfold resume at 2 4. simpl.
    destruct (serve env rq w) as [rp w1].
    destruct (start (k rp) w1) as [s w2].
    rewrite register_waiting.
    destruct (register i s (mkPool sl f rest)) as [sl' f' rest'] eqn:E. simpl.
    apply IH.
Qed.

Lemma drain_whole_round {A : Type} (env : Env)
    (front : list (nat * Request * (Reply -> prog A)))
    (sl : list (option A)) (f : option JsVal) (w : World) (fuel : nat) :
  drain env (length front + fuel) (mkPool sl f front) w =
  drain env fuel (fold_left (resume env) front (mkPool sl f [], w)).1
                 (fold_left (resume env) front (mkPool sl f [], w)).2.
Proof.
  pose proof (drain_round env front [] sl f w fuel) as H.
  rewrite app_nil_r in H. exact H.
Qed.

Lemma drain_idle {A : Type} (env : Env) (fuel : nat) (sl : list (option A))
    (f : option JsVal) (w : World) :
  drain env fuel (mkPool sl f []) w = (mkPool sl f [], w).
Proof. destruct fuel; reflexivity. Qed.

Lemma insert_at_length {A : Type} (pre : list A) (x y : A) (l : list A) :
  <[length pre := x]> (pre ++ y :: l) = (pre ++ [x]) ++ l.
Proof.
  induction pre as [|a pre IH]; simpl; [reflexivity|].
  f_equal. exact IH.
Qed.

Lemma mapM_id_Some {A B : Type} (f : A -> B) (l : list A) :
  mapM id (map (fun x => Some (f x)) l) = Some (map f l).
Proof.
  induction l as [|x l IH]; simpl; [reflexivity|].
  rewrite IH. reflexivity.
Qed.

(** ** The event log *)

Lemma trace_logs (evs : list Event) :
  forall w : World, trace (logs evs w) = trace w ++ evs.
Proof.
  induction evs as [|ev evs IH]; intros w; simpl.
  - rewrite app_nil_r. reflexivity.
  - unfold logs in IH. rewrite IH. simpl. rewrite <- app_assoc. reflexivity.
Qed.

Lemma this_logs (evs : list Event) : forall w : World, this (logs evs w) = this w.
Proof.
  induction evs as [|ev evs IH]; intros w; simpl; [reflexivity|].
  unfold logs in IH. rewrite IH. reflexivity.
Qed.

Lemma consumers_logs (evs : list Event) :
  forall w : World, consumers (logs evs w) = consumers w.
Proof.
  induction evs as [|ev evs IH]; intros w; simpl; [reflexivity|].
  unfold logs in IH. rewrite IH. reflexivity.
Qed.

Lemma names_logs (evs : list Event) : forall w : World, names (logs evs w) = names w.
Proof.
  induction evs as [|ev evs IH]; intros w; simpl; [reflexivity|].
  unfold logs in IH. rewrite IH. reflexivity.
Qed.

(** ** The consumer map as a plain object *)

Lemma object_get_own (o : gmap string string) (k : string) :
  k ∉ object_prototype_keys ->
  object_get o k = from_option JStr JUndefined (o !! k).
Proof.
  intros Hk. unfold object_get. destruct (o !! k); [reflexivity|].
  rewrite bool_decide_eq_false_2 by exact Hk. reflexivity.
Qed.

Lemma object_get_inherited (k : string) :
  k ∈ object_prototype_keys -> object_get ∅ k = JMember k.
Proof.
  intros Hk. unfold object_get. rewrite lookup_empty.
  rewrite bool_decide_eq_true_2 by exact Hk. reflexivity.
Qed.

Lemma lookup_object_set_ne (k k' v : string) (o : gmap string string) :
  k <> k' -> object_set k v o !! k' = o !! k'.
Proof.
  intros Hne. unfold object_set. destruct (bool_decide _); [reflexivity|].
  apply lookup_insert_ne, Hne.
Qed.

Lemma lookup_object_set (k v : string) (o : gmap string string) :
  k <> "__proto__" -> object_set k v o !! k = Some v.
Proof.
  intros Hne. unfold object_set.
  rewrite bool_decide_eq_false_2 by (intros [? _]; contradiction).
  apply lookup_insert_eq.
Qed.

Lemma object_set_proto (v : string) (o : gmap string string) :
  o !! "__proto__" = None -> object_set "__proto__" v o = o.
Proof.
  intros Hnone. unfold object_set.
  rewrite bool_decide_eq_true_2 by (split; [reflexivity | exact Hnone]). reflexivity.
Qed.

Lemma proto_is_inherited : "__proto__" ∈ object_prototype_keys.
Proof. apply (bool_decide_unpack _). reflexivity. Qed.

(** A check that decides that none of the events is the name of a member
    of [Object.prototype]. *)
Lemma ordinary_events (es : list string) :
  forallb (fun e => negb (bool_decide (e ∈ object_prototype_keys))) es = true ->
  forall e, e ∈ es -> e ∉ object_prototype_keys.
Proof.
  intros Hall e He Hin. rewrite forallb_forall in Hall.
  apply list_elem_of_In in He. specialize (Hall e He).
  rewrite bool_decide_eq_true_2 in Hall by exact Hin. discriminate.
Qed.

(** ** [_unsubscribe] *)

Section Unsubscribe.

Variable env : Env.
Variable ch : nat.
Variable m0 : gmap string string.

Lemma start_unsubscribe_one (event : string) (w : World) :
  event ∉ object_prototype_keys ->
  _consumers (this w) = m0 ->
  (is_Some (recorded m0 event) -> channel (this w) = Some ch) ->
  start (unsubscribe_one event) w =
    (match recorded m0 event with
     | Some tag => Suspended (ReqChan ch (Cancel (JStr tag))) (unsubscribe_resume event)
     | None => Done (Returned false)
     end, w).
Proof.
  intros Hord Hm Hch. unfold unsubscribe_one, recorded in *. simpl.
  rewrite Hm, (object_get_own _ _ Hord).
  destruct (m0 !! event) as [[|a s]|] eqn:E; simpl; try reflexivity.
  unfold _channel. simpl. rewrite Hch by (simpl; eauto). simpl.
  rewrite Hm, (object_get_own _ _ Hord), E. reflexivity.
Qed.

Lemma start_all_unsubscribe (es : list string) :
  forall (i : nat) (pl : pool bool) (w : World),
  (forall e, e ∈ es -> e ∉ object_prototype_keys) ->
  _consumers (this w) = m0 ->
  (forall e, e ∈ es -> is_Some (recorded m0 e) -> channel (this w) = Some ch) ->
  start_all i (map unsubscribe_one es) pl w =
    (mkPool (unsub_slots m0 true i es (slots pl)) (failure pl)
            (waiting pl ++ unsub_waiting ch m0 i es), w).
Proof.
  induction es as [|e es IH]; intros i pl w Hord Hm Hch;
    cbn [start_all map unsub_slots unsub_waiting].
  - rewrite app_nil_r. destruct pl; reflexivity.
  - rewrite (start_unsubscribe_one e w (Hord e ltac:(left)) Hm) by (apply Hch; left).
    rewrite IH;
      [| intros e' He'; apply Hord; right; exact He'
       | assumption
       | intros e' He' Hr; apply (Hch e'); [right; assumption | assumption]].
    destruct (recorded m0 e) as [tag|]; simpl; [|reflexivity].
    rewrite <- app_assoc. reflexivity.
Qed.

Lemma resume_all_unsubscribe (es : list string) :
  forall (i : nat) (sl : list (option bool)) (f : option JsVal) (w : World),
  fold_left (resume env) (unsub_waiting ch m0 i es) (mkPool sl f [], w) =
    (mkPool (unsub_slots m0 false i es sl) f [], unsub_world ch m0 es w).
Proof.
  induction es as [|e es IH]; intros i sl f w; simpl; [reflexivity|].
  destruct (recorded m0 e) as [tag|]; simpl; apply IH.
Qed.

End Unsubscribe.

Lemma unsub_slots_insert (m0 : gmap string string) (b : bool) (es : list string) :
  forall (i j : nat) (v : option bool) (sl : list (option bool)),
  (i < j)%nat ->
  <[i := v]> (unsub_slots m0 b j es sl) = unsub_slots m0 b j es (<[i := v]> sl).
Proof.
  induction es as [|e es IH]; intros i j v sl Hij; simpl; [reflexivity|].
  rewrite IH by lia. f_equal.
  destruct (recorded m0 e), b; try reflexivity; apply list_insert_insert_ne; lia.
Qed.

Lemma unsub_slots_final (m0 : gmap string string) (es : list string) :
  forall pre : list (option bool),
  unsub_slots m0 false (length pre) es
    (unsub_slots m0 true (length pre) es (pre ++ replicate (length es) None)) =
  pre ++ map (fun e => Some (bool_decide (is_Some (recorded m0 e)))) es.
Proof.
  induction es as [|e es IH]; intros pre; simpl; [reflexivity|].
  destruct (recorded m0 e) as [tag|] eqn:E.
  - rewrite unsub_slots_insert by lia. rewrite insert_at_length.
    replace (S (length pre)) with (length (pre ++ [Some true]))
      by (rewrite length_app; simpl; lia).
    rewrite IH. rewrite <- app_assoc. reflexivity.
  - rewrite insert_at_length.
    replace (S (length pre)) with (length (pre ++ [Some false]))
      by (rewrite length_app; simpl; lia).
    rewrite IH. rewrite <- app_assoc. reflexivity.
Qed.

Section UnsubscribeWorld.

Variable ch : nat.
Variable m0 : gmap string string.

Lemma unsub_world_trace (es : list string) :
  forall w : World,
  trace (unsub_world ch m0 es w) =
  trace w ++ map (fun tag => EvChan ch (Cancel (JStr tag))) (omap (recorded m0) es).
Proof.
  induction es as [|e es IH]; intros w; simpl.
  - rewrite app_nil_r. reflexivity.
  - rewrite IH. destruct (recorded m0 e) as [tag|]; simpl; [|reflexivity].
    rewrite <- app_assoc. reflexivity.
Qed.

Lemma unsub_world_consumers (es : list string) :
  forall (w : World) (c : Consumer),
  c ∈ consumers (unsub_world ch m0 es w) <->
  c ∈ consumers w /\ ~ (c_chan c = ch /\ consumerTag c ∈ omap (recorded m0) es).
Proof.
  induction es as [|e es IH]; intros w c; simpl.
  - split; [intros H; split; [exact H|] | intros [H _]; exact H].
    intros [_ H']. inversion H'.
  - rewrite IH. destruct (recorded m0 e) as [tag|]; simpl; [|reflexivity].
    rewrite list_elem_of_filter. rewrite elem_of_cons.
    split.
    + intros [[Hne Hin] Hn]. split; [exact Hin|].
      intros [Hc [Ht|Ht]]; [apply Hne; split; assumption | apply Hn; split; assumption].
    + intros [Hin Hn]. split; [split; [|exact Hin]|].
      * intros [Hc Ht]. apply Hn. split; [exact Hc | left; exact Ht].
      * intros [Hc Ht]. apply Hn. split; [exact Hc | right; exact Ht].
Qed.

Lemma unsub_world_map (es : list string) :
  forall (w : World) (e' : string),
  _consumers (this (unsub_world ch m0 es w)) !! e' =
  if decide (e' ∈ es /\ is_Some (recorded m0 e')) then None
  else _consumers (this w) !! e'.
Proof.
  induction es as [|e es IH]; intros w e'; simpl.
  - reflexivity.
  - rewrite IH.
    destruct (decide (e' ∈ es /\ is_Some (recorded m0 e'))) as [[Hin Hr]|Hn].
    + rewrite decide_True; [reflexivity | split; [right; exact Hin | exact Hr]].
    + destruct (recorded m0 e) as [tag|] eqn:E; simpl.
      * destruct (decide (e = e')) as [<-|Hne].
        -- rewrite lookup_delete_eq. rewrite decide_True; [reflexivity|].
           split; [left | rewrite E; eauto].
        -- rewrite lookup_delete_ne by exact Hne.
           rewrite decide_False; [reflexivity|].
           intros [Hin Hr]. apply elem_of_cons in Hin as [->|Hin]; [congruence|].
           apply Hn. split; assumption.
      * rewrite decide_False; [reflexivity|].
        intros [Hin Hr]. apply elem_of_cons in Hin as [->|Hin].
        -- rewrite E in Hr. destruct Hr; discriminate.
        -- apply Hn. split; assumption.
Qed.

End UnsubscribeWorld.

(** For events that are not names of members of [Object.prototype],
    [_unsubscribe] answers, for each event in the order given, whether a
    consumer was recorded for it when the call was made ([false] for an
    event without one: "not found"), and it does not reject. Every recorded
    consumer is cancelled on the channel by its tag and its event is
    forgotten from the consumer map; nothing else in the map changes. The
    channel is only needed when some event has a recorded consumer. *)
Theorem unsubscribe_reports_and_forgets (env : Env) (w : World) (ch : nat)
    (events : list string) (fuel : nat) :
  (forall e, e ∈ events -> e ∉ object_prototype_keys) ->
  (forall e, e ∈ events -> is_Some (truthy_str (_consumers (this w) !! e)) ->
             channel (this w) = Some ch) ->
  (length events <= fuel)%nat ->
  exists w',
    _unsubscribe env fuel events w =
      (Returned (map (fun e => bool_decide (is_Some (truthy_str (_consumers (this w) !! e))))
                     events), w') /\
    trace w' =
      trace w ++ map (fun tag => EvChan ch (Cancel (JStr tag)))
                     (omap (fun e => truthy_str (_consumers (this w) !! e)) events) /\
    (forall c, c ∈ consumers w' <->
       c ∈ consumers w /\
       ~ (c_chan c = ch /\
          consumerTag c ∈ omap (fun e => truthy_str (_consumers (this w) !! e)) events)) /\
    (forall e, _consumers (this w') !! e =
       if decide (e ∈ events /\ is_Some (truthy_str (_consumers (this w) !! e)))
       then None else _consumers (this w) !! e).
Proof.
  intros Hord Hch Hfuel.
  set (m0 := _consumers (this w)).
  exists (unsub_world ch m0 events w).
  split; [|split; [|split]].
  - unfold _unsubscribe, promise_all.
    rewrite (start_all_unsubscribe ch m0 events 0 _ w Hord eq_refl Hch).
    cbn [slots failure waiting app].
    pose proof (drain_round env (unsub_waiting ch m0 0 events) []
                  (unsub_slots m0 true 0 events (replicate (length (map unsubscribe_one events)) None))
                  None w (fuel - length (unsub_waiting ch m0 0 events))) as Hd.
    rewrite app_nil_r in Hd.
    replace (length (unsub_waiting ch m0 0 events) +
             (fuel - length (unsub_waiting ch m0 0 events)))%nat with fuel in Hd.
    + rewrite Hd. rewrite resume_all_unsubscribe. simpl.
      rewrite drain_idle. simpl. unfold pool_result. simpl.
      rewrite length_map.
      pose proof (unsub_slots_final m0 events []) as Hs. simpl in Hs.
      rewrite Hs. rewrite mapM_id_Some. reflexivity.
    + assert (forall i es, (length (unsub_waiting ch m0 i es) <= length es)%nat) as Hlen.
      { intros i es. revert i. induction es as [|e es IH]; intros i; simpl; [lia|].
        rewrite length_app. specialize (IH (S i)).
        destruct (recorded m0 e); simpl; lia. }
      specialize (Hlen 0%nat events). lia.
  - apply unsub_world_trace.
  - apply unsub_world_consumers.
  - apply unsub_world_map.
Qed.

Lemma unsubscribe_witness :
  (length ["a"; "a"; "c"] <= 3)%nat /\
  exists w',
    _unsubscribe demo_env 3 ["a"; "a"; "c"] demo_subscribed =
      (Returned [true; true; false], w') /\
    _consumers (this w') !! "a" = None.
Proof.
  split; [simpl; lia|].
  destruct (unsubscribe_reports_and_forgets demo_env demo_subscribed 0 ["a"; "a"; "c"] 3
              (ordinary_events ["a"; "a"; "c"] eq_refl)
              (fun _ _ _ => eq_refl) ltac:(simpl; lia))
    as (w' & Hrun & _ & _ & Hmap).
  exists w'. split; [exact Hrun|]. rewrite Hmap. reflexivity.
Defined.

(** C4 fails on the code for an event whose name is that of a member of
    [Object.prototype], such as ['toString']: no consumer is recorded for
    it, but [this._consumers[event]] is the inherited member, which is
    truthy, so the branch of a recorded consumer is taken; on a broker
    without a channel the [_channel] accessor throws and [_unsubscribe]
    rejects instead of answering "not found". *)
Theorem unsubscribe_inherited_name_throws (env : Env) (w : World) (event : string)
    (fuel : nat) :
  event ∈ object_prototype_keys ->
  _consumers (this w) !! event = None ->
  channel (this w) = None ->
  object_get (_consumers (this w)) event = JMember event /\
  _unsubscribe env fuel [event] w = (Thrown (JError "no available amqp channel"), w).
Proof.
  intros Hin Hnone Hch.
  assert (Hget : object_get (_consumers (this w)) event = JMember event).
  { unfold object_get. rewrite Hnone, bool_decide_eq_true_2 by exact Hin. reflexivity. }
  split; [exact Hget|].
  unfold _unsubscribe, promise_all.
  rewrite (start_all_thrown env no_channel (map unsubscribe_one [event]) 0 _ w).
  - simpl. destruct fuel; reflexivity.
  - apply List.Forall_map, Forall_forall. intros e He.
    apply list_elem_of_singleton in He as ->.
    unfold unsubscribe_one, _channel. simpl. rewrite Hget. simpl. rewrite Hch. reflexivity.
Qed.

Lemma unsubscribe_inherited_name_witness :
  _consumers (this (fresh_world demo_broker)) = ∅ /\
  _unsubscribe demo_env 1 ["toString"] (fresh_world demo_broker) =
    (Thrown (JError "no available amqp channel"), fresh_world demo_broker).
Proof.
  split; [reflexivity|].
  apply (unsubscribe_inherited_name_throws demo_env (fresh_world demo_broker) "toString" 1).
  - apply (bool_decide_unpack _). reflexivity.
  - reflexivity.
  - reflexivity.
Defined.

(** ** Delivery to a subscribed consumer *)

Lemma serve_response (env : Env) (ch : nat) (msg : Message) (a : Affordance) (w : World) :
  serve_chan env ch (response env msg a) w = (RepDone, log (EvChan ch (response env msg a)) w).
Proof. destruct a; reflexivity. Qed.

Lemma run_respond_all (env : Env) (ch : nat) (msg : Message) (acts : list Affordance) :
  forall w : World,
  channel (this w) = Some ch ->
  run env (respond_all env msg acts) w =
    (Returned tt, logs (map (fun a => EvChan ch (response env msg a)) acts) w).
Proof.
  induction acts as [|a acts IH]; intros w H; simpl; [reflexivity|].
  rewrite H. simpl. rewrite serve_response. simpl.
  apply IH. exact H.
Qed.

Lemma run_handleMessage (env : Env) (ch : nat) (event : string) (msg : Message) (w : World) :
  channel (this w) = Some ch ->
  run env (_handleMessage env event msg) w =
    (match (listeners env event (content msg)).2 with
     | Some e => Thrown e
     | None => Returned tt
     end,
     logs (map (fun a => EvChan ch (response env msg a))
               (listeners env event (content msg)).1)
          (log (EvDispatch event (content msg)) w)).
Proof.
  intros H. unfold _handleMessage. simpl.
  rewrite run_bind. rewrite run_respond_all with (ch := ch) by exact H.
  unfold run_then. simpl.
  destruct (listeners env event (content msg)).2; reflexivity.
Qed.

(** C3. When the dispatch of a delivered message throws, the consumer
    callback rejects that message without requeue and emits [error] with
    the thrown value; the consumer stays registered, and a message
    delivered to it afterwards whose dispatch returns is dispatched as
    usual, with no rejection and no notification added by the callback. *)
Theorem listener_exception_is_contained (env : Env) (w : World) (ch : nat)
    (tag : string) (i : nat) (c : Consumer) (event : string)
    (m1 m2 : Message) (e : JsVal) :
  channel (this w) = Some ch ->
  list_find (fun c => c_chan c = ch /\ consumerTag c = tag) (consumers w) = Some (i, c) ->
  c_fn c = EventConsumer event ->
  (listeners env event (content m1)).2 = Some e ->
  (listeners env event (content m2)).2 = None ->
  let w1 :=
    log (EvEmit "error" e)
      (log (EvChan ch (Reject m1 (Some false)))
         (logs (map (fun a => EvChan ch (response env m1 a))
                    (listeners env event (content m1)).1)
               (log (EvDispatch event (content m1)) w))) in
  run env (deliver env ch tag (Some m1)) w = (Returned tt, w1) /\
  consumers w1 = consumers w /\
  run env (deliver env ch tag (Some m2)) w1 =
    (Returned tt,
     logs (map (fun a => EvChan ch (response env m2 a))
               (listeners env event (content m2)).1)
          (log (EvDispatch event (content m2)) w1)).
Proof.
  intros Hch Hfind Hfn Hthrow Hok w1.
  assert (Hd : forall (w' : World) (m : Message),
            channel (this w') = Some ch -> consumers w' = consumers w ->
            run env (deliver env ch tag (Some m)) w' =
            run env (on_message env event (Some m)) w').
  { intros w' m _ Hc. unfold deliver. simpl. rewrite Hc, Hfind, Hfn. reflexivity. }
  assert (Hc1 : consumers w1 = consumers w).
  { unfold w1. simpl. rewrite consumers_logs. reflexivity. }
  assert (Hch1 : channel (this w1) = Some ch).
  { unfold w1. simpl. rewrite this_logs. exact Hch. }
  split; [|split].
  - rewrite Hd by (reflexivity || exact Hch).
    unfold on_message. rewrite run_try_catch.
    rewrite (run_handleMessage env ch event m1 w Hch). rewrite Hthrow. simpl.
    rewrite this_logs. simpl. rewrite Hch. reflexivity.
  - exact Hc1.
  - rewrite Hd by assumption.
    unfold on_message. rewrite run_try_catch.
    rewrite (run_handleMessage env ch event m2 w1 Hch1). rewrite Hok. reflexivity.
Qed.

Lemma listener_exception_witness :
  (listeners demo_env "a" (content boom)).2 = Some (JError "boom") /\
  (listeners demo_env "a" (content fine)).2 = None /\
  run demo_env (deliver demo_env 0 "amq.gen-2" (Some boom)) demo_subscribed =
    (Returned tt,
     log (EvEmit "error" (JError "boom"))
       (log (EvChan 0 (Reject boom (Some false)))
          (log (EvDispatch "a" (content boom)) demo_subscribed))).
Proof.
  split; [reflexivity|]. split; [reflexivity|].
  exact (proj1 (listener_exception_is_contained demo_env demo_subscribed 0 "amq.gen-2"
                  1 a_consumer "a" boom fine (JError "boom")
                  eq_refl eq_refl eq_refl eq_refl eq_refl)).
Defined.

(** ** [call] *)

Lemma run_call (env : Env) (w : World) (ch : nat) (method : string) (data : JsVal)
    (arg : option nat) :
  channel (this w) = Some ch ->
  run env (call env method data arg) w =
    (Returned (deferreds w),
     call_world env ch method data (with_default arg w).1 (ulid env (ulids w))
       (with_default arg w).2).
Proof.
  intros Hch.
  unfold call, default_object, next_ulid, publish, _channel, _awaitResponse, chan_send.
  destruct arg as [l|]; simpl; rewrite Hch; simpl;
    unfold call_world, tagged, deref; simpl; rewrite !lookup_insert_eq; reflexivity.
Qed.

(** C1. On a broker with a live channel, [call] takes a new id from [ulid]
    (different from every id taken before, as [ulid] does not repeat),
    publishes the serialized data to the exchange under the method name
    with [correlationId] set to that id and [replyTo] set to the callback
    queue in the message properties, and returns a deferred result that is
    still pending. When a message carrying that correlation id in its
    properties is delivered to the consumer of the callback queue, the
    deferred result is resolved with the deserialized content and the
    entry is removed. *)
Theorem call_correlates_request_and_reply (env : Env) (w : World) (ch : nat)
    (method : string) (data : JsVal) (arg : option nat)
    (tag : string) (i : nat) (c0 : Consumer) :
  channel (this w) = Some ch ->
  list_find (fun c => c_chan c = ch /\ consumerTag c = tag) (consumers w) = Some (i, c0) ->
  c_fn c0 = ReplyConsumer ->
  callback (this w) = Some (c_queue c0) ->
  settled w !! deferreds w = None ->
  (forall j k, ulid env j = ulid env k -> j = k) ->
  let c := ulid env (ulids w) in
  exists (w' : World) (props : Obj),
    run env (call env method data arg) w = (Returned (deferreds w), w') /\
    (forall k, (k < ulids w)%nat -> ulid env k <> c) /\
    ulids w' = S (ulids w) /\
    trace w' =
      trace w ++ [EvChan ch (Publish (group (this w)) method (serialize env data) props)] /\
    props !! "correlationId" = Some (JStr c) /\
    props !! "replyTo" = Some (JStr (c_queue c0)) /\
    (exists window, responses w' !! c = Some (mkEntry (deferreds w) window)) /\
    settled w' !! deferreds w = None /\
    forall m : Message,
      prop (properties m) "correlationId" = JStr c ->
      exists w'',
        run env (deliver env ch tag (Some m)) w' = (Returned tt, w'') /\
        settled w'' !! deferreds w = Some (Resolved (deserialize env (content m))) /\
        responses w'' !! c = None.
Proof.
  intros Hch Hfind Hfn Hcb Hpending Hinj c.
  exists (call_world env ch method data (with_default arg w).1 c (with_default arg w).2).
  exists (tagged (deref (with_default arg w).2 (with_default arg w).1) (callback (this w)) c).
  split; [apply (run_call env w ch method data arg Hch)|].
  unfold call_world.
  assert (Hfr : this (with_default arg w).2 = this w /\
                consumers (with_default arg w).2 = consumers w /\
                trace (with_default arg w).2 = trace w /\
                ulids (with_default arg w).2 = ulids w /\
                deferreds (with_default arg w).2 = deferreds w /\
                settled (with_default arg w).2 = settled w).
  { destruct arg; simpl; repeat split; reflexivity. }
  destruct Hfr as (Ht & Hc & Htr & Hu & Hd & Hs).
  split; [|split; [|split; [|split; [|split; [|split; [|split]]]]]].
  - intros k Hk Heq. apply Hinj in Heq. lia.
  - simpl. rewrite Hu. reflexivity.
  - simpl. rewrite Htr, Ht. reflexivity.
  - unfold tagged. apply lookup_insert_eq.
  - unfold tagged. rewrite lookup_insert_ne by discriminate.
    rewrite lookup_insert_eq, Hcb. reflexivity.
  - eexists. simpl. rewrite Hd. apply lookup_insert_eq.
  - simpl. rewrite Hs. exact Hpending.
  - intros m Hm. eexists. split; [|split].
    + unfold deliver. simpl. rewrite Hc, Hfind, Hfn. simpl. rewrite Hm.
      simpl. rewrite lookup_insert_eq. simpl. reflexivity.
    + simpl. rewrite Hd. apply lookup_insert_eq.
    + simpl. apply lookup_delete_eq.
Qed.

Lemma call_correlates_witness :
  channel (this demo_connected) = Some 0%nat /\
  callback (this demo_connected) = Some "amq.gen-0" /\
  exists (w' : World) (props : Obj),
    run demo_env (call demo_env "method" (JStr "x") None) demo_connected = (Returned 0%nat, w') /\
    props !! "correlationId" = Some (JStr "0") /\
    props !! "replyTo" = Some (JStr "amq.gen-0").
Proof.
  split; [reflexivity|]. split; [reflexivity|].
  destruct (call_correlates_request_and_reply demo_env demo_connected 0 "method"
              (JStr "x") None "amq.gen-1" 0 reply_consumer
              eq_refl eq_refl eq_refl eq_refl eq_refl
              (fun j k H => inj pretty j k H))
    as (w' & props & Hrun & _ & _ & _ & Hc & Hr & _).
  exists w', props. split; [exact Hrun|]. split; [exact Hc | exact Hr].
Defined.

(** C10. [call] assigns [replyTo] and [correlationId] on the options
    object it is given, not on a copy: after the call (whether or not the
    publish succeeded) the caller's object holds the callback queue name
    and the generated id under these two keys, every other property of the
    object is as it was, and no other object has changed. *)
Theorem call_mutates_caller_options (env : Env) (w : World) (method : string)
    (data : JsVal) (l : nat) (o : Obj) :
  heap w !! l = Some o ->
  let w' := (run env (call env method data (Some l)) w).2 in
  heap w' !! l = Some (tagged o (callback (this w)) (ulid env (ulids w))) /\
  prop (deref w' l) "replyTo" = js_opt_string (callback (this w)) /\
  prop (deref w' l) "correlationId" = JStr (ulid env (ulids w)) /\
  (forall k, k <> "replyTo" -> k <> "correlationId" -> deref w' l !! k = o !! k) /\
  (forall l', l' <> l -> heap w' !! l' = heap w !! l').
Proof.
  intros Hl w'.
  assert (Hheap : heap w' = <[l := tagged o (callback (this w)) (ulid env (ulids w))]> (heap w)).
  { unfold w'. destruct (channel (this w)) as [ch|] eqn:Hch.
    - rewrite (run_call env w ch method data (Some l) Hch). simpl.
      unfold deref. simpl. rewrite Hl. reflexivity.
    - unfold call, default_object, next_ulid, publish, _channel. simpl.
      rewrite Hch. simpl. unfold deref. simpl. rewrite Hl. reflexivity. }
  unfold deref, prop. rewrite Hheap.
  split; [|split; [|split; [|split]]].
  - apply lookup_insert_eq.
  - rewrite lookup_insert_eq. simpl. unfold tagged.
    rewrite lookup_insert_ne by discriminate. rewrite lookup_insert_eq. reflexivity.
  - rewrite lookup_insert_eq. simpl. unfold tagged.
    rewrite lookup_insert_eq. reflexivity.
  - intros k Hk1 Hk2. rewrite lookup_insert_eq. simpl. unfold tagged.
    rewrite !lookup_insert_ne by congruence. reflexivity.
  - intros l' Hl'. rewrite lookup_insert_ne by congruence. reflexivity.
Qed.

Lemma call_mutates_witness :
  heap demo_with_options !! 0%nat = Some {[ "expiration" := JStr "5000" ]} /\
  heap (run demo_env (call demo_env "method" (JStr "x") (Some 0%nat)) demo_with_options).2
    !! 0%nat =
  Some (tagged {[ "expiration" := JStr "5000" ]} (Some "amq.gen-0") "0").
Proof.
  split; [reflexivity|].
  exact (proj1 (call_mutates_caller_options demo_env demo_with_options "method"
                  (JStr "x") 0 {[ "expiration" := JStr "5000" ]} eq_refl)).
Defined.

(** ** [connect] *)

Section Connect.

Variable env : Env.
Variable urlOrConn : string.
Variable opts : JsVal.

Lemma run_connect_given (fuel : nat) (conn : nat) (w : World) :
  run env (connect env fuel (inr conn) opts) w = (Returned conn, set_up env conn w).
Proof. reflexivity. Qed.

Lemma run_connect_loop_refused (errs : list JsVal) :
  forall (w : World) (fuel : nat),
  (forall k e, errs !! k = Some e -> dial env (dials w + k) (amqp_url urlOrConn) = inl e) ->
  run env (connect_loop (length errs + fuel) urlOrConn opts) w =
  run env (connect_loop fuel urlOrConn opts) (retried urlOrConn opts errs w).
Proof.
  induction errs as [|e errs IH]; intros w fuel Hd; [reflexivity|].
  cbn [length Nat.add connect_loop retried].
  rewrite run_bind. rewrite run_try_catch. simpl.
  replace (dial env (dials w) (amqp_url urlOrConn)) with (@inl JsVal nat e)
    by (symmetry; rewrite <- (Nat.add_0_r (dials w)); apply (Hd 0%nat); reflexivity).
  simpl. unfold run_then. simpl.
  apply IH. intros k e' Hk. simpl.
  replace (S (dials w + k))%nat with (dials w + S k)%nat by lia.
  apply Hd. exact Hk.
Qed.

Lemma run_connect_loop_accepted (conn : nat) (w : World) (fuel : nat) :
  dial env (dials w) (amqp_url urlOrConn) = inr conn ->
  run env (connect_loop (S fuel) urlOrConn opts) w = (Returned conn, accepted urlOrConn opts conn w).
Proof.
  intros Hd. cbn [connect_loop]. rewrite run_bind. rewrite run_try_catch. simpl.
  rewrite Hd. reflexivity.
Qed.

Lemma retried_frame (errs : list JsVal) :
  forall w : World,
  this (retried urlOrConn opts errs w) = this w /\
  dials (retried urlOrConn opts errs w) = (dials w + length errs)%nat /\
  handlers (retried urlOrConn opts errs w) = handlers w /\
  consumers (retried urlOrConn opts errs w) = consumers w /\
  trace (retried urlOrConn opts errs w) =
    trace w ++
    flat_map (fun e => [EvDial (amqp_url urlOrConn) opts; EvEmit "close" e;
                        EvSleep (reconnectTimeout (options (this w)))]) errs.
Proof.
  induction errs as [|e errs IH]; intros w; simpl.
  - rewrite app_nil_r. repeat split; lia.
  - destruct (IH (refused urlOrConn opts e w)) as (Ht & Hd & Hh & Hc & Htr).
    rewrite Ht, Hd, Hh, Hc, Htr. simpl. rewrite <- !app_assoc. simpl.
    repeat split; lia.
Qed.

End Connect.

Lemma run_connect_url (env : Env) (fuel : nat) (u : string) (opts : JsVal) (w : World) :
  run env (connect env fuel (inl u) opts) w =
  match (run env (connect_loop fuel u opts) w).1 with
  | Returned conn =>
      (Returned conn, set_up env conn (run env (connect_loop fuel u opts) w).2)
  | Thrown e => (Thrown e, (run env (connect_loop fuel u opts) w).2)
  | Running => (Running, (run env (connect_loop fuel u opts) w).2)
  end.
Proof.
  unfold connect. rewrite run_bind. unfold run_then.
  destruct (run env (connect_loop fuel u opts) w) as [[conn|e|] w1]; reflexivity.
Qed.

Lemma connect_loop_returns_connected (env : Env) (u : string) (opts : JsVal) (fuel : nat) :
  forall (w w' : World) (conn : nat),
  run env (connect_loop fuel u opts) w = (Returned conn, w') ->
  exists k, dial env (dials w + k) (amqp_url u) = inr conn.
Proof.
  induction fuel as [|fuel IH]; intros w w' conn Hrun; [discriminate|].
  destruct (dial env (dials w) (amqp_url u)) as [e|c] eqn:Hd.
  - change (connect_loop (S fuel) u opts)
      with (connect_loop (length [e] + fuel) u opts) in Hrun.
    rewrite run_connect_loop_refused in Hrun.
    + apply IH in Hrun as [k Hk]. exists (S k). simpl in Hk.
      replace (dials w + S k)%nat with (S (dials w + k)) by lia. exact Hk.
    + intros [|k] e' Hk; [|destruct k; discriminate].
      injection Hk as <-. rewrite Nat.add_0_r. exact Hd.
  - rewrite (run_connect_loop_accepted env u opts c w fuel Hd) in Hrun.
    injection Hrun as <- _. exists 0%nat. rewrite Nat.add_0_r. exact Hd.
Qed.

Lemma demo_refusals (k : nat) (e : JsVal) :
  refusals !! k = Some e ->
  dial demo_env (dials (fresh_world demo_broker) + k) (amqp_url "localhost") = inl e.
Proof.
  destruct k as [|[|k]]; simpl; intros H; try discriminate;
    injection H as <-; reflexivity.
Defined.

(** C5. Given a URL, [connect] tries to connect until an attempt is
    accepted. Every refused attempt is followed by a [close] notification
    carrying the error and by a pause of [options.reconnectTimeout] before
    the next attempt; after any number of refused attempts the loop is
    still running; [connect] returns the connection once an attempt is
    accepted, and it returns only a connection that an attempt produced. *)
Theorem connect_retries_until_connected (env : Env) (w : World) (u : string)
    (opts : JsVal) (errs : list JsVal) :
  (forall k e, errs !! k = Some e ->
               dial env (dials w + k) (amqp_url u) = inl e) ->
  let failures :=
    flat_map (fun e => [EvDial (amqp_url u) opts; EvEmit "close" e;
                        EvSleep (reconnectTimeout (options (this w)))]) errs in
  (exists w',
     run env (connect env (length errs) (inl u) opts) w = (Running, w') /\
     trace w' = trace w ++ failures) /\
  (forall conn fuel,
     dial env (dials w + length errs) (amqp_url u) = inr conn ->
     (length errs < fuel)%nat ->
     exists w' rest,
       run env (connect env fuel (inl u) opts) w = (Returned conn, w') /\
       trace w' =
         trace w ++ failures ++
         [EvDial (amqp_url u) opts; EvOn conn (OnClose u opts); EvOn conn OnError]
         ++ rest) /\
  (forall fuel conn w',
     run env (connect env fuel (inl u) opts) w = (Returned conn, w') ->
     exists k, dial env (dials w + k) (amqp_url u) = inr conn).
Proof.
  intros Hd failures.
  destruct (retried_frame u opts errs w) as (Ht & Hn & Hh & Hc & Htr).
  split; [|split].
  - exists (retried u opts errs w). split; [|exact Htr].
    rewrite run_connect_url.
    pose proof (run_connect_loop_refused env u opts errs w 0 Hd) as Hr.
    rewrite Nat.add_0_r in Hr. rewrite Hr. reflexivity.
  - intros conn fuel Hacc Hfuel.
    exists (set_up env conn (accepted u opts conn (retried u opts errs w))). eexists.
    rewrite run_connect_url.
    replace fuel with (length errs + S (fuel - S (length errs)))%nat by lia.
    rewrite (run_connect_loop_refused env u opts errs w _ Hd).
    rewrite (run_connect_loop_accepted env u opts conn)
      by (rewrite Hn; exact Hacc).
    split; [reflexivity|].
    simpl. rewrite Htr. rewrite <- !app_assoc. simpl. reflexivity.
  - intros fuel conn w' Hrun. rewrite run_connect_url in Hrun.
    destruct (run env (connect_loop fuel u opts) w) as [[c|e|] w1] eqn:Hloop;
      simpl in Hrun; try discriminate.
    injection Hrun as <- _.
    apply (connect_loop_returns_connected env u opts fuel w w1 c Hloop).
Qed.

Lemma connect_retries_witness :
  exists w',
    run demo_env (connect demo_env 3 (inl "localhost") JUndefined) (fresh_world demo_broker) =
      (Returned 2%nat, w').
Proof.
  destruct (connect_retries_until_connected demo_env (fresh_world demo_broker)
              "localhost" JUndefined refusals demo_refusals)
    as (_ & Hacc & _).
  destruct (Hacc 2%nat 3%nat eq_refl ltac:(simpl; lia)) as (w' & rest & Hrun & _).
  exists w'. exact Hrun.
Defined.

(** ** Connection events *)

Lemma selected_none (conn : nat) (close : bool) (hs : list (nat * Handler)) :
  (forall h, (conn, h) ∉ hs) -> omap (selected conn close) hs = [].
Proof.
  induction hs as [|[c h] hs IH]; intros Hfresh; simpl; [reflexivity|].
  unfold selected at 1. simpl. rewrite decide_False.
  - apply IH. intros h' Hin. apply (Hfresh h'). right. exact Hin.
  - intros [-> _]. apply (Hfresh h). left.
Qed.

Lemma run_connection_emit (env : Env) (conn : nat) (close : bool) (err : JsVal) (w : World) :
  run env (connection_emit env conn close err) w =
  run env (handle_all env (omap (selected conn close) (handlers w)) err) w.
Proof. reflexivity. Qed.

Lemma run_connection_closes (env : Env) (conn : nat) (err : JsVal) (w : World) :
  run env (connection_closes env conn err) w =
  if isFatalError env err
  then run_then env (run env (connection_emit env conn false err) w)
         (fun _ => connection_emit env conn true err)
  else run env (connection_emit env conn true err) w.
Proof.
  unfold connection_closes. destruct (isFatalError env err); [apply run_bind | reflexivity].
Qed.

(** What the two handlers of a connection do, in any world in which they
    are the only handlers of that connection. *)
Lemma run_handlers (env : Env) (w : World) (u : string) (opts : JsVal)
    (conn : nat) (err : JsVal) (hs : list (nat * Handler)) :
  handlers w = hs ++ [(conn, OnClose u opts); (conn, OnError)] ->
  (forall h, (conn, h) ∉ hs) ->
  run env (connection_emit env conn true err) w =
    (Returned tt,
     if isFatalError env err then w
     else log (EvTimer (reconnectTimeout (options (this w))) (Reconnect u opts))
            (log (EvEmit "close" err) w)) /\
  run env (connection_emit env conn false err) w =
    (Returned tt, log (EvEmit "error" err) w).
Proof.
  intros Hhs Hfresh. split.
  - rewrite run_connection_emit, Hhs, omap_app.
    rewrite (selected_none conn true hs Hfresh).
    unfold selected. simpl. rewrite decide_True by (split; reflexivity).
    rewrite decide_False by (intros [_ ?]; discriminate).
    simpl. destruct (isFatalError env err); reflexivity.
  - rewrite run_connection_emit, Hhs, omap_app.
    rewrite (selected_none conn false hs Hfresh).
    unfold selected. simpl. rewrite decide_False by (intros [_ ?]; discriminate).
    rewrite decide_True by (split; reflexivity).
    reflexivity.
Qed.

(** C6. After [connect] has established a connection from a URL: a close
    event with a non-fatal error emits [close] and sets a timer of
    [options.reconnectTimeout] that calls [connect] again with the same
    arguments; an error event emits [error] and changes nothing else, so
    the connection is not closed by it. The close handler itself does
    nothing on a fatal error (no timer: no retry); a fatal close is
    surfaced by the error handler, since the connection emits ['error']
    before ['close'] when it closes on a fatal error: all that happens
    then is the [error] notification. *)
Theorem connection_events_after_connect (env : Env) (w : World) (u : string)
    (opts : JsVal) (errs : list JsVal) (conn fuel : nat) (err : JsVal) :
  (forall k e, errs !! k = Some e ->
               dial env (dials w + k) (amqp_url u) = inl e) ->
  dial env (dials w + length errs) (amqp_url u) = inr conn ->
  (length errs < fuel)%nat ->
  (forall h, (conn, h) ∉ handlers w) ->
  exists w',
    run env (connect env fuel (inl u) opts) w = (Returned conn, w') /\
    run env (connection_emit env conn true err) w' =
      (Returned tt,
       if isFatalError env err then w'
       else log (EvTimer (reconnectTimeout (options (this w))) (Reconnect u opts))
              (log (EvEmit "close" err) w')) /\
    (forall fuel', fire env fuel' (Reconnect u opts) = connect env fuel' (inl u) opts) /\
    run env (connection_emit env conn false err) w' =
      (Returned tt, log (EvEmit "error" err) w') /\
    run env (connection_closes env conn err) w' =
      (Returned tt,
       if isFatalError env err then log (EvEmit "error" err) w'
       else log (EvTimer (reconnectTimeout (options (this w))) (Reconnect u opts))
              (log (EvEmit "close" err) w')).
Proof.
  intros Hd Hacc Hfuel Hfresh.
  destruct (retried_frame u opts errs w) as (Ht & Hn & Hh & Hc & Htr).
  set (w' := set_up env conn (accepted u opts conn (retried u opts errs w))).
  exists w'.
  assert (Hhs : handlers w' = handlers w ++ [(conn, OnClose u opts); (conn, OnError)]).
  { unfold w'. simpl. rewrite Hh. rewrite <- app_assoc. reflexivity. }
  assert (Hthis : options (this w') = options (this w)).
  { unfold w'. simpl. rewrite Ht. reflexivity. }
  destruct (run_handlers env w' u opts conn err (handlers w) Hhs Hfresh) as [Hclose Herror].
  rewrite Hthis in Hclose.
  split; [|split; [|split; [|split]]].
  - rewrite run_connect_url.
    replace fuel with (length errs + S (fuel - S (length errs)))%nat by lia.
    rewrite (run_connect_loop_refused env u opts errs w _ Hd).
    rewrite (run_connect_loop_accepted env u opts conn)
      by (rewrite Hn; exact Hacc).
    reflexivity.
  - exact Hclose.
  - reflexivity.
  - exact Herror.
  - rewrite run_connection_closes.
    destruct (isFatalError env err) eqn:Hf; [|exact Hclose].
    rewrite Herror. unfold run_then. cbn [fst snd].
    destruct (run_handlers env (log (EvEmit "error" err) w') u opts conn err
                (handlers w) Hhs Hfresh) as [Hclose' _].
    rewrite Hclose', Hf. reflexivity.
Qed.

Lemma connection_events_witness :
  isFatalError demo_env (JError "CONNECTION_FORCED") = false /\
  exists w',
    run demo_env (connect demo_env 3 (inl "localhost") JUndefined) (fresh_world demo_broker) =
      (Returned 2%nat, w') /\
    run demo_env (connection_emit demo_env 2 true (JError "CONNECTION_FORCED")) w' =
      (Returned tt,
       log (EvTimer None (Reconnect "localhost" JUndefined))
         (log (EvEmit "close" (JError "CONNECTION_FORCED")) w')).
Proof.
  split; [reflexivity|].
  destruct (connection_events_after_connect demo_env (fresh_world demo_broker)
              "localhost" JUndefined refusals 2 3 (JError "CONNECTION_FORCED")
              demo_refusals eq_refl ltac:(simpl; lia)
              (fun h H => match not_elem_of_nil _ H with end))
    as (w' & Hrun & Hclose & _).
  exists w'. split; [exact Hrun | exact Hclose].
Defined.

(** ** The reconnect delay *)

(** C7. The constructor does not fill in [reconnectTimeout]: the options
    are stored as they are given, a broker constructed without options has
    no [reconnectTimeout], and after a refused attempt its [connect] pauses
    with an undefined delay, which Node.js turns into one millisecond, not
    ten seconds. *)
Theorem reconnect_timeout_has_no_default (group subgroup : option string) :
  reconnectTimeout (options (constructor group (inl <$> subgroup) None)) = None /\
  (forall o, reconnectTimeout (options (constructor group (inl <$> subgroup) (Some o))) =
             reconnectTimeout o) /\
  (forall o third, reconnectTimeout (options (constructor group (Some (inr o)) third)) =
                   reconnectTimeout o) /\
  trace (run demo_env (connect demo_env 1 (inl "localhost") JUndefined)
           (fresh_world plain_broker)).2 =
    [EvDial "amqp://localhost" JUndefined; EvEmit "close" (JError "ECONNREFUSED");
     EvSleep None] /\
  timer_delay None = 1.
Proof.
  split; [|split; [|split; [|split]]].
  - destruct subgroup; reflexivity.
  - intros o. destruct subgroup; reflexivity.
  - intros o third. reflexivity.
  - vm_compute. reflexivity.
  - reflexivity.
Qed.

(** ** [_subscribe] *)

Section Subscribe.

Variable env : Env.
Variable ch : nat.
Variable b : Amqp.

Lemma start_subscribe_one (event : string) (w : World) :
  this w = b -> channel b = Some ch ->
  start (subscribe_one event) w =
    (Suspended ((after_assert ch b) event).1 ((after_assert ch b) event).2, w).
Proof.
  intros Hb Hch. unfold subscribe_one, createQueue, _channel. simpl.
  rewrite Hb, Hch. reflexivity.
Qed.

Lemma start_all_subscribe (es : list string) :
  forall (i : nat) (pl : pool string) (w : World),
  this w = b -> channel b = Some ch ->
  start_all i (map subscribe_one es) pl w =
    (mkPool (slots pl) (failure pl) (waiting pl ++ tasks i (after_assert ch b) es), w).
Proof.
  induction es as [|e es IH]; intros i pl w Hb Hch; cbn [start_all map tasks].
  - rewrite app_nil_r. destruct pl; reflexivity.
  - rewrite (start_subscribe_one e w Hb Hch). rewrite IH by assumption.
    simpl. rewrite <- app_assoc. reflexivity.
Qed.

Lemma resume_after_assert (es : list string) :
  forall (i : nat) (sl : list (option string)) (f : option JsVal)
         (rest : list (nat * Request * (Reply -> prog string))) (w : World),
  this w = b -> channel b = Some ch ->
  fold_left (resume env) (tasks i (after_assert ch b) es) (mkPool sl f rest, w) =
    (mkPool sl f (rest ++ tasks i (after_bind ch b) es),
     logs (map (fun e => EvChan ch (AssertQueue (queue_name b e) (assert (options b)))) es) w).
Proof.
  induction es as [|e es IH]; intros i sl f rest w Hb Hch; cbn [tasks fold_left map logs].
  - rewrite app_nil_r. reflexivity.
  - unfold resume at 2. cbn [fst snd after_assert serve].
    rewrite serve_assert_named by apply queue_name_nonempty.
    unfold bind_tail, _channel. simpl. rewrite Hb, Hch. simpl. rewrite ?Hb.
    rewrite IH by assumption. rewrite <- app_assoc. reflexivity.
Qed.

Lemma resume_after_bind (es : list string) :
  forall (i : nat) (sl : list (option string)) (f : option JsVal)
         (rest : list (nat * Request * (Reply -> prog string))) (w : World),
  this w = b -> channel b = Some ch ->
  fold_left (resume env) (tasks i (after_bind ch b) es) (mkPool sl f rest, w) =
    (mkPool sl f (rest ++ tasks i (after_consume ch b) es),
     logs (map (fun e => EvChan ch (BindQueue (queue_name b e) (group b) e)) es) w).
Proof.
  induction es as [|e es IH]; intros i sl f rest w Hb Hch; cbn [tasks fold_left map logs].
  - rewrite app_nil_r. reflexivity.
  - unfold resume at 2. cbn [fst snd after_bind serve].
    change (serve_chan env ch (BindQueue (queue_name b e) (group b) e) w)
      with (RepDone, log (EvChan ch (BindQueue (queue_name b e) (group b) e)) w).
    unfold consume_tail, _channel. simpl. rewrite Hb, Hch. simpl. rewrite ?Hb.
    rewrite IH by assumption. rewrite <- app_assoc. reflexivity.
Qed.

Lemma resume_after_consume (es : list string) :
  forall (i : nat) (sl : list (option string)) (f : option JsVal) (w : World),
  fold_left (resume env) (tasks i (after_consume ch b) es) (mkPool sl f [], w) =
    (mkPool (filled env i (names w) es sl) f [], consumed env ch b es w).
Proof.
  induction es as [|e es IH]; intros i sl f w; cbn [tasks fold_left filled consumed].
  - reflexivity.
  - unfold resume at 2. cbn [fst snd after_consume serve].
    change (serve_chan env ch (Consume (queue_name b e) (EventConsumer e) (consume (options b))) w)
      with (RepConsume (server_name env (names w)),
            tick_names
              (set_consumers
                 (fun cs => cs ++ [mkConsumer (server_name env (names w)) ch (queue_name b e)
                                     (EventConsumer e) (consume (options b))])
                 (log (EvChan ch (Consume (queue_name b e) (EventConsumer e)
                                    (consume (options b)))) w))).
    simpl. apply IH.
Qed.

End Subscribe.

Section SubscribeWorld.

Variable env : Env.
Variable ch : nat.
Variable b : Amqp.

Lemma filled_final (es : list string) :
  forall (n : nat) (pre : list (option string)),
  filled env (length pre) n es (pre ++ replicate (length es) None) =
  pre ++ map (fun k => Some (server_name env k)) (seq n (length es)).
Proof.
  induction es as [|e es IH]; intros n pre; simpl; [reflexivity|].
  rewrite insert_at_length.
  replace (S (length pre)) with (length (pre ++ [Some (server_name env n)]))
    by (rewrite length_app; simpl; lia).
  rewrite IH. rewrite <- app_assoc. reflexivity.
Qed.

Lemma event_consumers_consumed_one (e e' : string) (w : World) :
  event_consumers e' (consumed_one env ch b e w) =
  event_consumers e' w ++
  (if decide (e = e') then [(new_consumer ch b) e (server_name env (names w))] else []).
Proof.
  unfold event_consumers. simpl. rewrite filter_app. f_equal.
  rewrite filter_cons. simpl.
  destruct (decide (e = e')) as [->|Hne].
  - rewrite decide_True by reflexivity. reflexivity.
  - rewrite decide_False by congruence. reflexivity.
Qed.

Lemma consumed_frame (es : list string) :
  forall (w : World) (e' : string),
  e' ∉ es ->
  event_consumers e' (consumed env ch b es w) = event_consumers e' w /\
  _consumers (this (consumed env ch b es w)) !! e' = _consumers (this w) !! e'.
Proof.
  induction es as [|e es IH]; intros w e' Hnot; simpl; [split; reflexivity|].
  apply not_elem_of_cons in Hnot as [Hne Hnot].
  destruct (IH (consumed_one env ch b e w) e' Hnot) as [Hc Hm].
  rewrite Hc, Hm. rewrite event_consumers_consumed_one.
  rewrite decide_False by congruence. rewrite app_nil_r. simpl.
  rewrite lookup_object_set_ne by congruence. split; reflexivity.
Qed.




Lemma consumed_consumers (es : list string) :
  forall w : World,
  consumers (consumed env ch b es w) =
  consumers w ++
  zip_with (new_consumer ch b) es (map (server_name env) (seq (names w) (length es))).
Proof.
  induction es as [|e es IH]; intros w; simpl.
  - rewrite app_nil_r. reflexivity.
  - rewrite IH. simpl. rewrite <- app_assoc. reflexivity.
Qed.

End SubscribeWorld.

Lemma length_tasks (f : string -> Request * (Reply -> prog string))
    (es : list string) :
  forall i : nat, length (tasks i f es) = length es.
Proof. induction es as [|e es IH]; intros i; simpl; [reflexivity | rewrite IH; reflexivity]. Qed.





(** * Further properties of the Amqp class *)

(** ** What [_subscribe] and [_unsubscribe] lead to *)

Lemma run_unsubscribe (env : Env) (w : World) (ch : nat) (events : list string) (fuel : nat) :
  (forall e, e ∈ events -> e ∉ object_prototype_keys) ->
  (forall e, e ∈ events -> is_Some (recorded (_consumers (this w)) e) ->
             channel (this w) = Some ch) ->
  (length events <= fuel)%nat ->
  _unsubscribe env fuel events w =
    (Returned (map (fun e => bool_decide (is_Some (recorded (_consumers (this w)) e))) events),
     unsub_world ch (_consumers (this w)) events w).
Proof.
  intros Hord Hch Hfuel. set (m0 := _consumers (this w)).
  assert (Hlen : forall i es, (length (unsub_waiting ch m0 i es) <= length es)%nat).
  { intros i es. revert i. induction es as [|e es IH]; intros i; simpl; [lia|].
    rewrite length_app. specialize (IH (S i)). destruct (recorded m0 e); simpl; lia. }
  unfold _unsubscribe, promise_all.
  rewrite (start_all_unsubscribe ch m0 events 0 _ w Hord eq_refl Hch).
  cbn [slots failure waiting app]. rewrite length_map.
  replace fuel with (length (unsub_waiting ch m0 0 events) +
                     (fuel - length (unsub_waiting ch m0 0 events)))%nat
    by (specialize (Hlen 0%nat events); lia).
  rewrite drain_whole_round, resume_all_unsubscribe.
  cbn [fst snd]. rewrite drain_idle. cbn [waiting]. unfold pool_result. cbn [failure slots].
  pose proof (unsub_slots_final m0 events []) as Hs. simpl in Hs.
  rewrite Hs, mapM_id_Some. reflexivity.
Qed.

Lemma run_subscribe (env : Env) (w : World) (ch : nat) (events : list string) (fuel : nat) :
  channel (this w) = Some ch ->
  (3 * length events <= fuel)%nat ->
  _subscribe env fuel events w =
    (Returned (map (server_name env) (seq (names w) (length events))),
     consumed env ch (this w) events
       (logs (map (fun e => EvChan ch (BindQueue (queue_name (this w) e) (group (this w)) e))
                  events)
          (logs (map (fun e => EvChan ch (AssertQueue (queue_name (this w) e)
                                            (assert (options (this w))))) events) w))).
Proof.
  intros Hch Hfuel. set (b := this w).
  unfold _subscribe, promise_all.
  rewrite (start_all_subscribe ch b events 0 _ w eq_refl Hch).
  cbn [slots failure waiting app]. rewrite length_map.
  replace fuel with
    (length (tasks 0 (after_assert ch b) events) +
     (length (tasks 0 (after_bind ch b) events) +
      (length (tasks 0 (after_consume ch b) events) + (fuel - 3 * length events))))%nat
    by (rewrite !length_tasks; lia).
  rewrite drain_whole_round.
  rewrite (resume_after_assert env ch b events 0 _ _ [] w eq_refl Hch).
  cbn [fst snd app].
  rewrite drain_whole_round.
  rewrite (resume_after_bind env ch b events 0 _ _ [] _
             ltac:(rewrite this_logs; reflexivity) Hch).
  cbn [fst snd app].
  rewrite drain_whole_round, resume_after_consume.
  cbn [fst snd]. rewrite drain_idle. cbn [waiting]. unfold pool_result. cbn [failure slots].
  rewrite !names_logs.
  pose proof (filled_final env events (names w) []) as Hs. simpl in Hs.
  rewrite Hs, mapM_id_Some. reflexivity.
Qed.

Lemma filter_all {A : Type} (P : A -> Prop) `{forall x, Decision (P x)} (l : list A) :
  (forall x, x ∈ l -> P x) -> filter P l = l.
Proof.
  induction l as [|x l IH]; intros Hall; [reflexivity|].
  rewrite filter_cons_True by (apply Hall; left).
  f_equal. apply IH. intros y Hy. apply Hall. right. exact Hy.
Qed.

Lemma filter_none {A : Type} (P : A -> Prop) `{forall x, Decision (P x)} (l : list A) :
  (forall x, x ∈ l -> ~ P x) -> filter P l = [].
Proof.
  induction l as [|x l IH]; intros Hall; [reflexivity|].
  rewrite filter_cons_False by (apply Hall; left).
  apply IH. intros y Hy. apply Hall. right. exact Hy.
Qed.

Lemma truthy_str_nonempty (s : string) : s <> "" -> truthy_str (Some s) = Some s.
Proof. destruct s; [congruence | reflexivity]. Qed.

Lemma unsub_world_consumers_eq (ch : nat) (m0 : gmap string string) (es : list string) :
  forall w : World,
  consumers (unsub_world ch m0 es w) =
  filter (fun c => ~ (c_chan c = ch /\ consumerTag c ∈ omap (recorded m0) es)) (consumers w).
Proof.
  induction es as [|e es IH]; intros w; simpl.
  - symmetry. apply filter_all. intros c _ [_ Hin]. inversion Hin.
  - rewrite IH. destruct (recorded m0 e) as [tag|]; simpl; [|reflexivity].
    rewrite list_filter_filter. apply list_filter_iff. intros c. split.
    + intros [Hrest Htag] [Hc Hin]. apply elem_of_cons in Hin as [Hin|Hin].
      * apply Htag. split; assumption.
      * apply Hrest. split; assumption.
    + intros Hn. split.
      * intros [Hc Hin]. apply Hn. split; [exact Hc | right; exact Hin].
      * intros [Hc Ht]. apply Hn. split; [exact Hc | apply elem_of_cons; left; exact Ht].
Qed.

Lemma unsub_world_nothing_recorded (ch : nat) (m0 : gmap string string) (es : list string) :
  forall w : World,
  (forall e, e ∈ es -> recorded m0 e = None) ->
  unsub_world ch m0 es w = w /\
  map (fun e => bool_decide (is_Some (recorded m0 e))) es = map (fun _ => false) es.
Proof.
  induction es as [|e es IH]; intros w Hnone; simpl; [split; reflexivity|].
  rewrite (Hnone e) by left. simpl.
  destruct (IH w) as [Hw Hm]; [intros e' He'; apply Hnone; right; exact He'|].
  rewrite Hw, Hm. split; reflexivity.
Qed.

Section SubscribedWorld.

Variable env : Env.
Variable ch : nat.
Variable b : Amqp.
Hypothesis tags_nonempty : forall n, server_name env n <> "".

Lemma consumed_names (es : list string) :
  forall w : World, names (consumed env ch b es w) = (names w + length es)%nat.
Proof.
  induction es as [|e es IH]; intros w; simpl; [lia|].
  rewrite IH. simpl. lia.
Qed.

Lemma consumed_recorded (es : list string) :
  forall (w : World) (e : string),
  e ∈ es -> e <> "__proto__" ->
  is_Some (recorded (_consumers (this (consumed env ch b es w))) e).
Proof.
  induction es as [|e0 es IH]; intros w e Hin Hp; [inversion Hin|]. simpl.
  destruct (decide (e ∈ es)) as [Hes|Hes]; [apply IH; assumption|].
  apply elem_of_cons in Hin as [->|Hin]; [|contradiction].
  destruct (consumed_frame env ch b es (consumed_one env ch b e0 w) e0 Hes) as [_ Hm].
  unfold recorded. rewrite Hm. simpl. rewrite lookup_object_set by exact Hp.
  rewrite truthy_str_nonempty by apply tags_nonempty. eauto.
Qed.

Lemma consumed_recorded_tags (es : list string) :
  forall w : World,
  NoDup es ->
  "__proto__" ∉ es ->
  omap (recorded (_consumers (this (consumed env ch b es w)))) es =
  map (server_name env) (seq (names w) (length es)).
Proof.
  induction es as [|e es IH]; intros w Hnd Hp; [reflexivity|].
  apply NoDup_cons in Hnd as [Hnot Hnd]. cbn [consumed length seq map].
  apply not_elem_of_cons in Hp as [Hpe Hp].
  set (m := _consumers (this (consumed env ch b es (consumed_one env ch b e w)))).
  assert (Hrec : recorded m e = Some (server_name env (names w))).
  { destruct (consumed_frame env ch b es (consumed_one env ch b e w) e Hnot) as [_ Hm].
    unfold recorded, m. rewrite Hm. simpl. rewrite lookup_object_set by congruence.
    apply truthy_str_nonempty, tags_nonempty. }
  change (omap (recorded m) (e :: es))
    with (match recorded m e with
          | Some y => y :: omap (recorded m) es
          | None => omap (recorded m) es
          end).
  rewrite Hrec. f_equal. unfold m. rewrite (IH (consumed_one env ch b e w) Hnd Hp).
  reflexivity.
Qed.

Lemma new_consumers_cancelled (es : list string) :
  forall (tags : list string) (c : Consumer),
  c ∈ zip_with (new_consumer ch b) es tags -> c_chan c = ch /\ consumerTag c ∈ tags.
Proof.
  induction es as [|e es IH]; intros [|t tags] c Hin; simpl in Hin; try (inversion Hin; fail).
  apply elem_of_cons in Hin as [->|Hin].
  - split; [reflexivity | left].
  - destruct (IH tags c Hin) as [Hc Ht]. split; [exact Hc | right; exact Ht].
Qed.

End SubscribedWorld.

Lemma consumed_channel (env : Env) (ch : nat) (b : Amqp) (es : list string) :
  forall w : World, channel (this (consumed env ch b es w)) = channel (this w).
Proof.
  induction es as [|e es IH]; intros w; simpl; [reflexivity|].
  rewrite IH. reflexivity.
Qed.

(** X1. Subscribing to distinct events that have no recorded consumer and
    then unsubscribing from them leaves the consumer map and the active
    consumers exactly as they were: every event is reported found, and
    every consumer that was registered is cancelled. The events must not be
    names of members of [Object.prototype], and the server's tags must be
    non-empty and new on the channel. *)
Theorem subscribe_then_unsubscribe_restores (env : Env) (w : World) (ch : nat)
    (events : list string) (fuel : nat) :
  channel (this w) = Some ch ->
  NoDup events ->
  (forall e, e ∈ events -> e ∉ object_prototype_keys) ->
  (forall e, e ∈ events -> _consumers (this w) !! e = None) ->
  (forall n, server_name env n <> "") ->
  (forall c k, c ∈ consumers w -> c_chan c = ch -> (names w <= k)%nat ->
               consumerTag c <> server_name env k) ->
  (3 * length events <= fuel)%nat ->
  exists w1 w2,
    _subscribe env fuel events w =
      (Returned (map (server_name env) (seq (names w) (length events))), w1) /\
    _unsubscribe env fuel events w1 = (Returned (map (fun _ => true) events), w2) /\
    _consumers (this w2) = _consumers (this w) /\
    consumers w2 = consumers w.
Proof.
  intros Hch Hnd Hord Hnone Hne Hfresh Hfuel.
  assert (Hproto : forall e, e ∈ events -> e <> "__proto__").
  { intros e He ->. exact (Hord _ He proto_is_inherited). }
  set (b := this w).
  set (w0 := logs (map (fun e => EvChan ch (BindQueue (queue_name b e) (group b) e)) events)
               (logs (map (fun e => EvChan ch (AssertQueue (queue_name b e) (assert (options b))))
                          events) w)).
  assert (Hb0 : this w0 = b) by (unfold w0; rewrite !this_logs; reflexivity).
  assert (Hn0 : names w0 = names w) by (unfold w0; rewrite !names_logs; reflexivity).
  assert (Hc0 : consumers w0 = consumers w) by (unfold w0; rewrite !consumers_logs; reflexivity).
  set (w1 := consumed env ch b events w0).
  assert (Hch1 : channel (this w1) = Some ch).
  { unfold w1. rewrite consumed_channel, Hb0. exact Hch. }
  exists w1, (unsub_world ch (_consumers (this w1)) events w1).
  split; [apply (run_subscribe env w ch events fuel Hch Hfuel)|].
  split; [|split].
  - rewrite (run_unsubscribe env w1 ch events fuel Hord (fun _ _ _ => Hch1) ltac:(lia)).
    do 2 f_equal. apply List.map_ext_in. intros e He. apply list_elem_of_In in He.
    apply bool_decide_eq_true_2. unfold w1. apply consumed_recorded; auto.
  - apply map_eq. intros e. rewrite unsub_world_map.
    destruct (decide (e ∈ events)) as [He|He].
    + rewrite decide_True.
      * symmetry. apply Hnone, He.
      * split; [exact He|]. unfold w1. apply consumed_recorded; auto.
    + rewrite decide_False by (intros [? _]; contradiction).
      unfold w1. destruct (consumed_frame env ch b events w0 e He) as [_ Hm].
      rewrite Hm, Hb0. reflexivity.
  - rewrite unsub_world_consumers_eq. unfold w1.
    rewrite (consumed_recorded_tags env ch b Hne events w0 Hnd)
      by (intros Hin; exact (Hproto _ Hin eq_refl)).
    rewrite consumed_consumers, Hc0, Hn0, filter_app.
    rewrite filter_all, filter_none; [apply app_nil_r | |].
    + intros c Hc Hn. apply Hn.
      apply (new_consumers_cancelled ch b events _ c Hc).
    + intros c Hc [Hcc Hin]. apply list_elem_of_In in Hin.
      apply in_map_iff in Hin as [k [Hk Hin]]. apply in_seq in Hin.
      apply (Hfresh c k Hc Hcc); [lia | congruence].
Qed.

(** X2. Unsubscribing a second time from the same events, none of them the
    name of a member of [Object.prototype], finds nothing: every event is
    reported not found, nothing is sent on the channel and the world does
    not change. *)
Theorem unsubscribe_twice_is_a_no_op (env : Env) (w : World) (ch : nat)
    (events : list string) (fuel : nat) :
  (forall e, e ∈ events -> e ∉ object_prototype_keys) ->
  (forall e, e ∈ events -> is_Some (truthy_str (_consumers (this w) !! e)) ->
             channel (this w) = Some ch) ->
  (length events <= fuel)%nat ->
  exists w',
    (_unsubscribe env fuel events w).2 = w' /\
    _unsubscribe env fuel events w' = (Returned (map (fun _ => false) events), w').
Proof.
  intros Hord Hch Hfuel.
  exists (unsub_world ch (_consumers (this w)) events w).
  rewrite (run_unsubscribe env w ch events fuel Hord Hch Hfuel). split; [reflexivity|].
  set (w' := unsub_world ch (_consumers (this w)) events w).
  assert (Hnone : forall e, e ∈ events -> recorded (_consumers (this w')) e = None).
  { intros e He. unfold recorded, w'. rewrite unsub_world_map.
    destruct (truthy_str (_consumers (this w) !! e)) as [tag|] eqn:E.
    - rewrite decide_True; [reflexivity|]. split; [exact He|]. unfold recorded. rewrite E. eauto.
    - rewrite decide_False; [exact E|]. intros [_ Hs]. unfold recorded in Hs.
      rewrite E in Hs. destruct Hs; discriminate. }
  rewrite (run_unsubscribe env w' ch events fuel).
  - destruct (unsub_world_nothing_recorded ch (_consumers (this w')) events w' Hnone)
      as [Hw Hm].
    rewrite Hw, Hm. reflexivity.
  - exact Hord.
  - intros e He Hs. rewrite (Hnone e He) in Hs. destruct Hs; discriminate.
  - exact Hfuel.
Qed.


Lemma connect_loop_frame (env : Env) (u : string) (opts : JsVal) (fuel : nat) :
  forall (w w1 : World) (conn : nat),
  run env (connect_loop fuel u opts) w = (Returned conn, w1) ->
  this w1 = this w /\ consumers w1 = consumers w /\
  chans w1 = chans w /\ names w1 = names w.
Proof.
  induction fuel as [|fuel IH]; intros w w1 conn Hrun; [discriminate|].
  destruct (dial env (dials w) (amqp_url u)) as [e|c] eqn:Hd.
  - change (connect_loop (S fuel) u opts)
      with (connect_loop (length [e] + fuel) u opts) in Hrun.
    rewrite run_connect_loop_refused in Hrun.
    + apply IH in Hrun. exact Hrun.
    + intros [|k] e' Hk; [|destruct k; discriminate].
      injection Hk as <-. rewrite Nat.add_0_r. exact Hd.
  - rewrite (run_connect_loop_accepted env u opts c w fuel Hd) in Hrun.
    injection Hrun as _ <-. repeat split; reflexivity.
Qed.

(** X4. Every successful [connect] opens a new channel and a new callback
    queue with its own consumer and makes them the broker's current ones,
    but it neither clears the consumer map nor registers a consumer for
    any event: events subscribed before a reconnect stay recorded under
    their old tags and are not subscribed again on the new channel. *)
Theorem connect_does_not_resubscribe (env : Env) (w w' : World) (fuel : nat)
    (urlOrConn : string + nat) (opts : JsVal) (conn : nat) :
  run env (connect env fuel urlOrConn opts) w = (Returned conn, w') ->
  channel (this w') = Some (chans w) /\
  chans w' = S (chans w) /\
  callback (this w') = Some (server_name env (names w)) /\
  _consumers (this w') = _consumers (this w) /\
  consumers w' =
    consumers w ++
    [mkConsumer (server_name env (S (names w))) (chans w) (server_name env (names w))
       ReplyConsumer (Some {[ "noAck" := JBool true ]})] /\
  (forall e, event_consumers e w' = event_consumers e w).
Proof.
  intros Hrun.
  assert (Hw : exists w1, w' = set_up env conn w1 /\ this w1 = this w /\
                          consumers w1 = consumers w /\ chans w1 = chans w /\
                          names w1 = names w).
  { destruct urlOrConn as [u|c].
    - rewrite run_connect_url in Hrun.
      destruct (run env (connect_loop fuel u opts) w) as [[c|e|] w1] eqn:Hloop;
        simpl in Hrun; try discriminate.
      injection Hrun as <- <-. exists w1. split; [reflexivity|].
      apply (connect_loop_frame env u opts fuel w w1 c Hloop).
    - rewrite run_connect_given in Hrun. injection Hrun as <- <-.
      exists w. repeat split; reflexivity. }
  destruct Hw as (w1 & -> & Ht & Hc & Hch & Hn).
  assert (Hcs : consumers (set_up env conn w1) =
                consumers w ++
                [mkConsumer (server_name env (S (names w))) (chans w)
                   (server_name env (names w)) ReplyConsumer
                   (Some {[ "noAck" := JBool true ]})]).
  { simpl. rewrite Hc, Hch, Hn. reflexivity. }
  split; [simpl; rewrite Hch; reflexivity|].
  split; [simpl; rewrite Hch; reflexivity|].
  split; [simpl; rewrite Hn; reflexivity|].
  split; [simpl; rewrite Ht; reflexivity|].
  split; [exact Hcs|].
  intros e. unfold event_consumers. rewrite Hcs, filter_app.
  rewrite (filter_none _ [_]); [apply app_nil_r|].
  intros c Hin. apply list_elem_of_singleton in Hin as ->. discriminate.
Qed.

(** X5. [call] on a broker without a channel throws the error of the
    [_channel] accessor. By then it has taken an id from [ulid] and has
    assigned [replyTo] and [correlationId] on the caller's options; it has
    sent nothing and has stored no correlation entry, so no response is
    left pending. *)
Theorem call_without_channel (env : Env) (w : World) (method : string)
    (data : JsVal) (l : nat) (o : Obj) :
  channel (this w) = None ->
  heap w !! l = Some o ->
  run env (call env method data (Some l)) w =
    (Thrown (JError "no available amqp channel"),
     set_heap <[l := tagged o (callback (this w)) (ulid env (ulids w))]> (tick_ulids w)).
Proof.
  intros Hch Hl. unfold call, default_object, next_ulid, publish, _channel. simpl.
  rewrite Hch. simpl. unfold deref. simpl. rewrite Hl. reflexivity.
Qed.

(** X6. The request that [call] publishes carries what the [reply] response
    option of a listener needs: for any message with the published
    properties, [reply(data)] sends the serialized data to the caller's
    callback queue and echoes the caller's correlation id in the
    properties. *)
Theorem reply_is_addressed_to_the_caller (env : Env) (w : World) (ch : nat)
    (q method : string) (data : JsVal) (arg : option nat) :
  channel (this w) = Some ch ->
  callback (this w) = Some q ->
  exists props,
    trace (run env (call env method data arg) w).2 =
      trace w ++ [EvChan ch (Publish (group (this w)) method (serialize env data) props)] /\
    forall (m : Message) (d : JsVal) (w2 : World) (ch2 : nat),
      properties m = props ->
      channel (this w2) = Some ch2 ->
      run env (respond env m (DoReply d)) w2 =
        (Returned tt,
         log (EvChan ch2 (SendToQueue (JStr q) (serialize env d)
                            {[ "correlationId" := JStr (ulid env (ulids w)) ]})) w2).
Proof.
  intros Hch Hcb.
  exists (tagged (deref (with_default arg w).2 (with_default arg w).1)
            (callback (this w)) (ulid env (ulids w))).
  split.
  - rewrite (run_call env w ch method data arg Hch). destruct arg; reflexivity.
  - intros m d w2 ch2 Hm Hch2. unfold respond, _channel. simpl. rewrite Hch2. simpl.
    unfold response, prop. rewrite Hm. unfold tagged.
    rewrite lookup_insert_eq. rewrite lookup_insert_ne by discriminate.
    rewrite lookup_insert_eq, Hcb. reflexivity.
Qed.

(** X7. For one broker, two events have the same queue exactly when they
    are the same event. *)
Theorem queue_name_separates_events (b : Amqp) (e1 e2 : string) :
  queue_name b e1 = queue_name b e2 <-> e1 = e2.
Proof.
  split; [|intros ->; reflexivity].
  unfold queue_name. intros H.
  apply (inj (String.append _)) in H. apply (inj (String.append _)) in H.
  apply (inj (String.append _)) in H. exact H.
Qed.

(** X8. The subgroup is not delimited in the queue name: a broker without
    a subgroup that uses the event "sg:ev" gets the queue of a broker of
    the same group with subgroup "sg" and event "ev". *)
Theorem queue_name_subgroup_is_a_prefix (b1 b2 : Amqp) (sg ev : string) :
  group b1 = group b2 ->
  subgroup b1 = None ->
  subgroup b2 = Some sg ->
  sg <> "" ->
  queue_name b1 (sg +:+ ":" +:+ ev) = queue_name b2 ev.
Proof.
  intros Hg H1 H2 Hne. unfold queue_name. rewrite Hg, H1, H2.
  rewrite truthy_str_nonempty by exact Hne. simpl truthy_str.
  change ("" +:+ sg +:+ ":" +:+ ev) with (sg +:+ ":" +:+ ev).
  rewrite append_assoc. reflexivity.
Qed.

(** X14. [_subscribe(['__proto__'])] on a live channel registers a consumer
    at the server and returns its tag, but records nothing: the assignment
    [this._consumers['__proto__'] = tag] goes to the setter that the object
    inherits, which ignores a string, so the consumer map is as before. *)
Theorem subscribe_proto_is_not_recorded (env : Env) (w : World) (ch fuel : nat) :
  channel (this w) = Some ch ->
  _consumers (this w) !! "__proto__" = None ->
  (3 <= fuel)%nat ->
  exists w',
    _subscribe env fuel ["__proto__"] w = (Returned [server_name env (names w)], w') /\
    consumers w' =
      consumers w ++
      [mkConsumer (server_name env (names w)) ch (queue_name (this w) "__proto__")
         (EventConsumer "__proto__") (consume (options (this w)))] /\
    _consumers (this w') = _consumers (this w).
Proof.
  intros Hch Hnone Hfuel. eexists. split; [|split].
  - apply (run_subscribe env w ch ["__proto__"] fuel Hch). simpl. lia.
  - rewrite consumed_consumers, !consumers_logs, !names_logs. reflexivity.
  - simpl. apply object_set_proto, Hnone.
Qed.

(** ** Examples on the concrete environment *)

Lemma demo_names_nonempty (n : nat) : server_name demo_env n <> "".
Proof. simpl. cbv [String.append]. discriminate. Qed.

Lemma demo_names_fresh (c : Consumer) (k : nat) :
  c ∈ consumers demo_connected -> c_chan c = 0%nat -> (names demo_connected <= k)%nat ->
  consumerTag c <> server_name demo_env k.
Proof.
  intros Hc _ Hk Heq.
  change (consumers demo_connected) with [reply_consumer] in Hc.
  apply list_elem_of_singleton in Hc as ->.
  change (consumerTag reply_consumer) with (server_name demo_env 1) in Heq.
  simpl in Heq. apply (inj (String.append _)) in Heq. apply (inj pretty) in Heq.
  subst k. vm_compute in Hk. lia.
Qed.

Lemma subscribe_then_unsubscribe_witness :
  exists w1 w2,
    _subscribe demo_env 6 ["a"; "b"] demo_connected =
      (Returned ["amq.gen-2"; "amq.gen-3"], w1) /\
    _unsubscribe demo_env 6 ["a"; "b"] w1 = (Returned [true; true], w2) /\
    _consumers (this w2) = ∅ /\
    consumers w2 = [reply_consumer].
Proof.
  apply (subscribe_then_unsubscribe_restores demo_env demo_connected 0 ["a"; "b"] 6 eq_refl).
  - apply NoDup_cons_2; [|apply NoDup_singleton].
    intros Hin. apply list_elem_of_singleton in Hin. discriminate.
  - exact (ordinary_events ["a"; "b"] eq_refl).
  - intros e _. reflexivity.
  - exact demo_names_nonempty.
  - exact demo_names_fresh.
  - simpl; lia.
Defined.

Lemma unsubscribe_twice_witness :
  exists w',
    (_unsubscribe demo_env 1 ["a"] demo_subscribed).2 = w' /\
    _unsubscribe demo_env 1 ["a"] w' = (Returned [false], w').
Proof.
  apply (unsubscribe_twice_is_a_no_op demo_env demo_subscribed 0 ["a"] 1
           (ordinary_events ["a"] eq_refl) (fun _ _ _ => eq_refl)).
  simpl; lia.
Defined.


Lemma connect_does_not_resubscribe_witness :
  exists w',
    run demo_env (connect demo_env 0 (inr 2%nat) JUndefined) demo_subscribed =
      (Returned 2%nat, w') /\
    channel (this w') = Some 1%nat /\
    _consumers (this w') !! "a" = Some "amq.gen-2" /\
    event_consumers "a" w' = [a_consumer].
Proof.
  eexists. split; [reflexivity|].
  destruct (connect_does_not_resubscribe demo_env demo_subscribed _ 0 (inr 2%nat)
              JUndefined 2 eq_refl)
    as (Hch & _ & _ & Hm & _ & Hev).
  split; [exact Hch|]. split; [rewrite Hm; reflexivity | rewrite Hev; reflexivity].
Defined.

Lemma call_without_channel_witness :
  run demo_env (call demo_env "method" (JStr "x") (Some 0%nat))
      (set_heap <[0%nat := ∅]> (fresh_world demo_broker)) =
    (Thrown (JError "no available amqp channel"),
     set_heap <[0%nat := tagged ∅ None "0"]>
       (tick_ulids (set_heap <[0%nat := ∅]> (fresh_world demo_broker)))).
Proof.
  apply (call_without_channel demo_env (set_heap <[0%nat := ∅]> (fresh_world demo_broker))
           "method" (JStr "x") 0 ∅ eq_refl).
  reflexivity.
Defined.

Lemma reply_is_addressed_witness :
  exists props,
    trace (run demo_env (call demo_env "method" (JStr "x") None) demo_connected).2 =
      trace demo_connected ++
      [EvChan 0 (Publish "g" "method" (list_ascii_of_string "x") props)] /\
    run demo_env (respond demo_env (mkMessage [] props 1) (DoReply (JStr "y"))) demo_connected =
      (Returned tt,
       log (EvChan 0 (SendToQueue (JStr "amq.gen-0") (list_ascii_of_string "y")
                        {[ "correlationId" := JStr "0" ]})) demo_connected).
Proof.
  destruct (reply_is_addressed_to_the_caller demo_env demo_connected 0 "amq.gen-0" "method"
              (JStr "x") None eq_refl eq_refl)
    as (props & Htrace & Hreply).
  exists props. split; [exact Htrace|].
  exact (Hreply (mkMessage [] props 1) (JStr "y") demo_connected 0%nat eq_refl eq_refl).
Defined.

Lemma subscribe_proto_witness :
  exists w',
    _subscribe demo_env 3 ["__proto__"] demo_connected = (Returned ["amq.gen-2"], w') /\
    map consumerTag (consumers w') = ["amq.gen-1"; "amq.gen-2"] /\
    _consumers (this w') = ∅.
Proof.
  destruct (subscribe_proto_is_not_recorded demo_env demo_connected 0 3 eq_refl eq_refl)
    as (w' & Hrun & Hcs & Hm); [lia|].
  exists w'. split; [exact Hrun|]. split; [rewrite Hcs; reflexivity | rewrite Hm; reflexivity].
Defined.

Lemma queue_name_subgroup_witness :
  queue_name plain_broker "sg:a" = queue_name demo_broker "a".
Proof.
  apply (queue_name_subgroup_is_a_prefix plain_broker demo_broker "sg" "a" eq_refl eq_refl eq_refl).
  discriminate.
Defined.


(** * Properties of the rate-limit mutex *)

Import RatelimitMutex.

Section MutexLoop.

Variable be : Backend.
Variable route : string.

Lemma rounds_frame (ts : list Z) :
  forall st : State,
  result (rounds route ts st) = result st /\
  signal (rounds route ts st) = signal st /\
  polls (rounds route ts st) = (polls st + length ts)%nat /\
  awaits (rounds route ts st) = (awaits st + 2 * length ts)%nat /\
  steps (rounds route ts st) =
    steps st ++ flat_map (fun t => [Pause t; GetTimeout route]) ts.
Proof.
  induction ts as [|t ts IH]; intros st; simpl.
  - rewrite app_nil_r. repeat split; lia.
  - destruct (IH (round route t st)) as (Hr & Hs & Hp & Ha & Ht).
    rewrite Hr, Hs, Hp, Ha, Ht. simpl. rewrite <- !app_assoc. simpl.
    repeat split; lia.
Qed.

(** The loop while the timeouts stay positive and nothing is aborted:
    [ts] are the timeouts waited for, each followed by a poll; the polls
    return the rest of [ts] and then [t_end]. *)
Lemma poll_loop_rounds (ts : list Z) :
  forall (st : State) (fuel : nat) (t_end : Z),
  is_aborted st = false ->
  (forall k, (awaits st <= k < awaits st + 2 * length ts)%nat ->
             aborts_during be k = false) ->
  (forall k x, ts !! k = Some x -> 0 < x) ->
  (forall k x, (ts ++ [t_end]) !! S k = Some x ->
               getTimeout be (polls st + k) route = inr x) ->
  poll_loop be (length ts + fuel) route (hd t_end (ts ++ [t_end])) st =
  poll_loop be fuel route t_end (rounds route ts st).
Proof.
  induction ts as [|p ts IH]; intros st fuel t_end Hab Hquiet Hpos Hget; [reflexivity|].
  assert (Hp : 0 < p) by (apply (Hpos 0%nat); reflexivity).
  apply Z.ltb_lt in Hp.
  cbn [length Nat.add poll_loop rounds hd app].
  rewrite Hp, Hab. cbn [negb andb].
  unfold poll, pause, suspend. cbn [awaits note].
  rewrite (Hquiet (awaits st)) by (simpl; lia).
  cbn [awaits note tick_awaits tick_polls polls].
  rewrite (Hquiet (S (awaits st))) by (simpl; lia).
  assert (Hnext : getTimeout be (polls st) route = inr (hd t_end (ts ++ [t_end]))).
  { rewrite <- (Nat.add_0_r (polls st)). apply (Hget 0%nat).
    destruct ts; reflexivity. }
  rewrite Hnext. fold (round route p st).
  apply IH.
  - exact Hab.
  - intros k Hk. apply Hquiet. simpl in *. lia.
  - intros k y Hk. apply (Hpos (S k) y). exact Hk.
  - intros k y Hk. simpl. replace (S (polls st + k)) with (polls st + S k)%nat by lia.
    apply (Hget (S k) y). exact Hk.
Qed.

End MutexLoop.

Lemma poll_quiet (be : Backend) (route : string) (st : State) :
  aborts_during be (awaits st) = false ->
  poll be route st =
    (getTimeout be (polls st) route, tick_awaits (tick_polls (note (GetTimeout route) st))).
Proof. intros H. unfold poll, suspend. cbn [awaits note tick_polls]. rewrite H. reflexivity. Qed.

Lemma add_listener_frame (st : State) :
  polls (add_listener st) = polls st /\
  awaits (add_listener st) = awaits st /\
  result (add_listener st) = result st /\
  is_aborted (add_listener st) = is_aborted st /\
  steps (add_listener st) = steps st ++ if_signal st AddListener /\
  signal (add_listener st) = (fun s => mkSignal (aborted s) true) <$> signal st.
Proof.
  unfold add_listener, if_signal, is_aborted.
  destruct (signal st) as [s|] eqn:E; simpl; rewrite ?E, ?app_nil_r;
    repeat split; reflexivity.
Qed.

Lemma remove_listener_frame (st : State) :
  polls (remove_listener st) = polls st /\
  result (remove_listener st) = result st /\
  steps (remove_listener st) = steps st ++ if_signal st RemoveListener /\
  signal (remove_listener st) = (fun s => mkSignal (aborted s) false) <$> signal st.
Proof.
  unfold remove_listener, if_signal.
  destruct (signal st) as [s|] eqn:E; simpl; rewrite ?E, ?app_nil_r;
    repeat split; reflexivity.
Qed.

Lemma settle_frame (r : Settlement) (st : State) :
  polls (settle r st) = polls st /\
  steps (settle r st) = steps st /\
  signal (settle r st) = signal st /\
  result (settle r st) = Some (default r (result st)).
Proof.
  unfold settle. destruct (result st) as [s|] eqn:E; simpl; rewrite ?E;
    repeat split; reflexivity.
Qed.

Lemma if_signal_fmap (st st' : State) (f : Signal -> Signal) (x : Step) :
  signal st' = f <$> signal st -> if_signal st' x = if_signal st x.
Proof. unfold if_signal. intros ->. destruct (signal st); reflexivity. Qed.

(** X9. Without an abort, [claim] polls [getTimeout], waits for every
    positive timeout it returns and polls again, until a timeout is not
    positive; then it resolves. With a signal it registers its listener
    first and removes it at the end. *)
Theorem claim_waits_until_clear (be : Backend) (route : string) (st : State)
    (ts : list Z) (t_end : Z) (fuel : nat) :
  result st = None ->
  is_aborted st = false ->
  (forall k, aborts_during be k = false) ->
  (forall k x, ts !! k = Some x -> 0 < x) ->
  t_end <= 0 ->
  (forall k x, (ts ++ [t_end]) !! k = Some x -> getTimeout be (polls st + k) route = inr x) ->
  (length ts < fuel)%nat ->
  exists st',
    claim be fuel route st = (true, st') /\
    result st' = Some (Resolved JUndefined) /\
    steps st' =
      steps st ++ if_signal st AddListener ++ polled route ts ++ if_signal st RemoveListener /\
    signal st' = (fun s => mkSignal (aborted s) false) <$> signal st /\
    polls st' = (polls st + S (length ts))%nat.
Proof.
  intros Hres Hab Hquiet Hpos Hend Hget Hfuel.
  destruct (add_listener_frame st) as (Hp0 & Ha0 & Hr0 & Hab0 & Hs0 & Hsig0).
  set (st0 := add_listener st) in *.
  set (st1 := tick_awaits (tick_polls (note (GetTimeout route) st0))).
  destruct (rounds_frame route ts st1) as (Hr & Hs & Hp & Ha & Ht).
  set (st2 := rounds route ts st1) in *.
  destruct (remove_listener_frame st2) as (Hp3 & Hr3 & Hs3 & Hsig3).
  destruct (settle_frame (Resolved JUndefined) (remove_listener st2)) as (Hp4 & Hs4 & Hsig4 & Hr4).
  exists (settle (Resolved JUndefined) (remove_listener st2)).
  split.
  - unfold claim. fold st0. rewrite poll_quiet by apply Hquiet. fold st1.
    rewrite Hp0.
    assert (H0 : getTimeout be (polls st) route = inr (hd t_end (ts ++ [t_end]))).
    { rewrite <- (Nat.add_0_r (polls st)). apply (Hget 0%nat). destruct ts; reflexivity. }
    rewrite H0.
    replace fuel with (length ts + S (fuel - S (length ts)))%nat by lia.
    rewrite (poll_loop_rounds be route ts st1 _ t_end).
    + fold st2. cbn [poll_loop]. apply Z.ltb_ge in Hend. rewrite Hend. reflexivity.
    + rewrite <- Hab, <- Hab0. reflexivity.
    + intros k _. apply Hquiet.
    + exact Hpos.
    + intros k x Hk. change (polls st1) with (S (polls st0)). rewrite Hp0.
      replace (S (polls st) + k)%nat with (polls st + S k)%nat by lia.
      apply Hget. exact Hk.
  - rewrite Hr4, Hr3, Hr, Hs4, Hs3, Ht, Hsig4, Hsig3, Hs, Hp4, Hp3, Hp.
    change (result st1) with (result st0). change (steps st1) with (steps st0 ++ [GetTimeout route]).
    change (signal st1) with (signal st0). change (polls st1) with (S (polls st0)).
    rewrite Hr0, Hres, Hs0, Hsig0, Hp0.
    rewrite (if_signal_fmap st st2 (fun s => mkSignal (aborted s) true))
      by (rewrite Hs; exact Hsig0).
    split; [reflexivity|]. split; [|split].
    + unfold polled. rewrite <- !app_assoc. reflexivity.
    + destruct (signal st); reflexivity.
    + lia.
Qed.

Lemma rounds_app (route : string) (ts1 ts2 : list Z) :
  forall st : State,
  rounds route (ts1 ++ ts2) st = rounds route ts2 (rounds route ts1 st).
Proof. induction ts1 as [|t ts1 IH]; intros st; simpl; [reflexivity | apply IH]. Qed.

Lemma suspend_aborted (be : Backend) (st : State) :
  is_aborted st = true -> suspend be st = tick_awaits st.
Proof.
  intros H. unfold suspend, abort. unfold is_aborted in H.
  destruct (aborts_during be (awaits st)); [|reflexivity].
  destruct (signal st) as [s|]; [|discriminate]. rewrite H. reflexivity.
Qed.

Lemma pause_quiet (be : Backend) (ms : Z) (st : State) :
  aborts_during be (awaits st) = false ->
  pause be ms st = tick_awaits (note (Pause ms) st).
Proof. intros H. unfold pause, suspend. cbn [awaits note]. rewrite H. reflexivity. Qed.

(** X10. When [getTimeout] throws, [claim] rejects with what was thrown and
    polls no more; it returns from the [catch] block, so a listener it
    registered on the signal is never removed. *)
Theorem claim_rejects_and_keeps_listener (be : Backend) (route : string) (st : State)
    (ts : list Z) (e : JsVal) (fuel : nat) :
  result st = None ->
  is_aborted st = false ->
  (forall k, aborts_during be k = false) ->
  (forall k x, ts !! k = Some x ->
               0 < x /\ getTimeout be (polls st + k) route = inr x) ->
  getTimeout be (polls st + length ts) route = inl e ->
  (length ts <= fuel)%nat ->
  exists st',
    claim be fuel route st = (true, st') /\
    result st' = Some (Rejected e) /\
    steps st' = steps st ++ if_signal st AddListener ++ polled route ts /\
    signal st' = (fun s => mkSignal (aborted s) true) <$> signal st /\
    polls st' = (polls st + S (length ts))%nat.
Proof.
  intros Hres Hab Hquiet Hts Hthrow Hfuel.
  destruct (add_listener_frame st) as (Hp0 & Ha0 & Hr0 & Hab0 & Hs0 & Hsig0).
  set (st0 := add_listener st) in *.
  set (st1 := tick_awaits (tick_polls (note (GetTimeout route) st0))).
  destruct (rounds_frame route ts st1) as (Hr & Hs & Hp & Ha & Ht).
  destruct (settle_frame (Rejected e) (rounds route ts st1)) as (Hp4 & Hs4 & Hsig4 & Hr4).
  exists (settle (Rejected e) (rounds route ts st1)).
  split.
  - unfold claim. fold st0. rewrite poll_quiet by apply Hquiet. fold st1. rewrite Hp0.
    clear Hr Hs Hp Ha Ht Hp4 Hs4 Hsig4 Hr4.
    induction ts as [|p ts' _] using rev_ind.
    + simpl in Hthrow. rewrite Nat.add_0_r in Hthrow. rewrite Hthrow. reflexivity.
    + assert (H0 : getTimeout be (polls st) route = inr (hd p (ts' ++ [p]))).
      { rewrite <- (Nat.add_0_r (polls st)). apply (Hts 0%nat). destruct ts'; reflexivity. }
      rewrite H0. rewrite length_app in Hfuel, Hthrow. simpl in Hfuel, Hthrow.
      replace fuel with (length ts' + S (fuel - S (length ts')))%nat by lia.
      rewrite (poll_loop_rounds be route ts' st1 _ p).
      * destruct (rounds_frame route ts' st1) as (Hr & Hs & Hp & Ha & Ht).
        assert (Hpp : 0 < p).
        { apply (Hts (length ts')). rewrite lookup_app_r by lia.
          rewrite Nat.sub_diag. reflexivity. }
        apply Z.ltb_lt in Hpp. cbn [poll_loop]. rewrite Hpp.
        assert (Hab2 : is_aborted (rounds route ts' st1) = false).
        { unfold is_aborted. rewrite Hs. change (signal st1) with (signal st0).
          fold (is_aborted st0). rewrite Hab0. exact Hab. }
        rewrite Hab2. cbn [negb andb]. rewrite pause_quiet by apply Hquiet.
        rewrite poll_quiet by apply Hquiet.
        cbn [polls tick_awaits note]. rewrite Hp. change (polls st1) with (S (polls st0)).
        rewrite Hp0. replace (S (polls st) + length ts')%nat with (polls st + (length ts' + 1))%nat by lia.
        rewrite Hthrow. rewrite rounds_app. reflexivity.
      * rewrite <- Hab, <- Hab0. reflexivity.
      * intros k _. apply Hquiet.
      * intros k x Hk. apply (Hts k). apply lookup_app_l_Some. exact Hk.
      * intros k x Hk. change (polls st1) with (S (polls st0)). rewrite Hp0.
        replace (S (polls st) + k)%nat with (polls st + S k)%nat by lia.
        apply (Hts (S k)). exact Hk.
  - rewrite Hr4, Hr, Hs4, Ht, Hsig4, Hs, Hp4, Hp.
    change (result st1) with (result st0). change (steps st1) with (steps st0 ++ [GetTimeout route]).
    change (signal st1) with (signal st0). change (polls st1) with (S (polls st0)).
    rewrite Hr0, Hres, Hs0, Hsig0, Hp0.
    split; [reflexivity|]. split; [|split].
    + unfold polled. rewrite <- !app_assoc. reflexivity.
    + reflexivity.
    + lia.
Qed.

(** X11. Given a signal that is already aborted, [claim] is not cancelled:
    its listener is registered too late to be called, the loop is skipped
    whatever timeout [getTimeout] returns, and the promise resolves after
    that single poll, without any wait. *)
Theorem claim_resolves_when_already_aborted (be : Backend) (route : string) (st : State)
    (s : Signal) (t : Z) (fuel : nat) :
  result st = None ->
  signal st = Some s ->
  aborted s = true ->
  getTimeout be (polls st) route = inr t ->
  (0 < fuel)%nat ->
  exists st',
    claim be fuel route st = (true, st') /\
    result st' = Some (Resolved JUndefined) /\
    steps st' = steps st ++ [AddListener; GetTimeout route; RemoveListener] /\
    polls st' = S (polls st).
Proof.
  intros Hres Hsig Hab Hget Hfuel.
  destruct fuel as [|fuel]; [lia|].
  eexists. split.
  - unfold claim, add_listener, poll. rewrite Hsig. cbn [polls note set_signal].
    rewrite Hget. rewrite suspend_aborted by (unfold is_aborted; simpl; exact Hab).
    cbn [poll_loop]. unfold is_aborted at 1. cbn [signal tick_awaits tick_polls note set_signal aborted].
    rewrite Hab. rewrite andb_false_r.
    unfold remove_listener. cbn [signal tick_awaits tick_polls note set_signal aborted].
    unfold settle. cbn [result tick_awaits tick_polls note set_signal]. rewrite Hres.
    reflexivity.
  - simpl. rewrite <- !app_assoc. repeat split; reflexivity.
Qed.

(** X12. When the signal is aborted while [claim] waits, the listener
    rejects the promise with the cancellation error. [claim] itself goes
    on: once the wait is over it polls [getTimeout] once more, and only
    then leaves the loop, whatever timeout that poll returns; it removes
    its listener and its [resolve] has no effect any more. *)
Theorem claim_cancelled_during_wait (be : Backend) (route : string) (st : State)
    (s : Signal) (ts : list Z) (p t : Z) (fuel : nat) :
  result st = None ->
  signal st = Some s ->
  aborted s = false ->
  (forall k, (k < awaits st + 2 * length ts + 1)%nat -> aborts_during be k = false) ->
  aborts_during be (awaits st + 2 * length ts + 1) = true ->
  (forall k x, (ts ++ [p]) !! k = Some x ->
               0 < x /\ getTimeout be (polls st + k) route = inr x) ->
  getTimeout be (polls st + S (length ts)) route = inr t ->
  (S (length ts) < fuel)%nat ->
  exists st',
    claim be fuel route st = (true, st') /\
    result st' = Some (Rejected (JError (REQUEST_CANCELLED be))) /\
    steps st' = steps st ++ AddListener :: polled route (ts ++ [p]) ++ [RemoveListener] /\
    signal st' = Some (mkSignal true false) /\
    polls st' = (polls st + S (S (length ts)))%nat.
Proof.
  intros Hres Hsig Hab Hquiet Habort Hts Hget Hfuel.
  set (st0 := note AddListener (set_signal (Some (mkSignal false true)) st)).
  assert (Hadd : add_listener st = st0).
  { unfold st0, add_listener. rewrite Hsig, Hab. reflexivity. }
  set (st1 := tick_awaits (tick_polls (note (GetTimeout route) st0))).
  destruct (rounds_frame route ts st1) as (Hr & Hs & Hp & Ha & Ht).
  set (st2 := rounds route ts st1) in *.
  assert (Hr2 : result st2 = None) by (rewrite Hr; exact Hres).
  assert (Hs2 : signal st2 = Some (mkSignal false true)) by (rewrite Hs; reflexivity).
  assert (Hp2 : polls st2 = (S (polls st) + length ts)%nat) by (rewrite Hp; reflexivity).
  assert (Ha2 : awaits st2 = (awaits st + 2 * length ts + 1)%nat).
  { rewrite Ha. simpl. lia. }
  assert (Ht2 : steps st2 = steps st ++ AddListener :: polled route ts).
  { rewrite Ht. simpl. rewrite <- !app_assoc. reflexivity. }
  set (st3 := tick_awaits
                (set_result (Some (Rejected (JError (REQUEST_CANCELLED be))))
                   (set_signal (Some (mkSignal true true)) (note (Pause p) st2)))).
  assert (Hpause : pause be p st2 = st3).
  { unfold pause, suspend, abort. cbn [awaits note signal]. rewrite Ha2, Habort, Hs2.
    cbn [aborted listening]. unfold settle. cbn [result set_signal note]. rewrite Hr2.
    reflexivity. }
  set (st4 := tick_awaits (tick_polls (note (GetTimeout route) st3))).
  assert (Hpoll : poll be route st3 = (inr t, st4)).
  { unfold poll. rewrite suspend_aborted by reflexivity.
    change (polls st3) with (polls st2). rewrite Hp2.
    replace (S (polls st) + length ts)%nat with (polls st + S (length ts))%nat by lia.
    rewrite Hget. reflexivity. }
  exists (settle (Resolved JUndefined) (remove_listener st4)).
  split.
  - unfold claim. rewrite Hadd. rewrite poll_quiet.
    2:{ apply Hquiet. simpl. lia. }
    fold st1.
    assert (H0 : getTimeout be (polls st0) route = inr (hd p (ts ++ [p]))).
    { cbn [polls st0 note set_signal]. rewrite <- (Nat.add_0_r (polls st)).
      apply (Hts 0%nat). destruct ts; reflexivity. }
    rewrite H0.
    replace fuel with (length ts + S (S (fuel - S (S (length ts)))))%nat by lia.
    rewrite (poll_loop_rounds be route ts st1 _ p).
    + fold st2.
      assert (Hpp : 0 < p).
      { apply (Hts (length ts)). rewrite lookup_app_r by lia.
        rewrite Nat.sub_diag. reflexivity. }
      apply Z.ltb_lt in Hpp. cbn [poll_loop]. rewrite Hpp.
      unfold is_aborted at 1. rewrite Hs2. cbn [aborted negb andb].
      rewrite Hpause, Hpoll.
      unfold is_aborted. cbn [signal st4 st3 tick_awaits tick_polls note set_result set_signal aborted].
      rewrite andb_false_r. reflexivity.
    + reflexivity.
    + intros k Hk. apply Hquiet. simpl in Hk. lia.
    + intros k x Hk. apply (Hts k). apply lookup_app_l_Some. exact Hk.
    + intros k x Hk. cbn [polls st1 st0 tick_awaits tick_polls note set_signal].
      replace (S (polls st) + k)%nat with (polls st + S k)%nat by lia.
      apply (Hts (S k)). exact Hk.
  - unfold settle, remove_listener.
    cbn [signal result st4 st3 tick_awaits tick_polls note set_result set_signal steps polls aborted].
    rewrite Ht2, Hp2. split; [reflexivity|]. split; [|split; [reflexivity|lia]].
    unfold polled. rewrite flat_map_app. simpl.
    repeat (rewrite <- List.app_assoc; simpl). reflexivity.
Qed.

Lemma poll_cancelled (be : Backend) (route : string) (st : State) :
  result st = None ->
  signal st = Some (mkSignal false true) ->
  aborts_during be (awaits st) = true ->
  poll be route st =
    (getTimeout be (polls st) route,
     tick_awaits
       (set_result (Some (Rejected (JError (REQUEST_CANCELLED be))))
          (set_signal (Some (mkSignal true true))
             (tick_polls (note (GetTimeout route) st))))).
Proof.
  intros Hres Hsig Habort. unfold poll, suspend, abort.
  cbn [awaits signal tick_polls note]. rewrite Habort, Hsig. cbn [aborted listening].
  unfold settle. cbn [result set_signal tick_polls note]. rewrite Hres. reflexivity.
Qed.

(** X13. When the signal is aborted while a [getTimeout] call is pending,
    the listener rejects the promise with the cancellation error, and
    [claim] leaves the loop as soon as that call returns: it waits no more,
    however long the returned timeout is, and removes its listener. *)
Theorem claim_cancelled_during_poll (be : Backend) (route : string) (st : State)
    (s : Signal) (ts : list Z) (t : Z) (fuel : nat) :
  result st = None ->
  signal st = Some s ->
  aborted s = false ->
  (forall k, (k < awaits st + 2 * length ts)%nat -> aborts_during be k = false) ->
  aborts_during be (awaits st + 2 * length ts) = true ->
  (forall k x, ts !! k = Some x ->
               0 < x /\ getTimeout be (polls st + k) route = inr x) ->
  getTimeout be (polls st + length ts) route = inr t ->
  (length ts < fuel)%nat ->
  exists st',
    claim be fuel route st = (true, st') /\
    result st' = Some (Rejected (JError (REQUEST_CANCELLED be))) /\
    steps st' = steps st ++ AddListener :: polled route ts ++ [RemoveListener] /\
    signal st' = Some (mkSignal true false) /\
    polls st' = (polls st + S (length ts))%nat.
Proof.
  intros Hres Hsig Hab Hquiet Habort Hts Hget Hfuel.
  set (st0 := note AddListener (set_signal (Some (mkSignal false true)) st)).
  assert (Hadd : add_listener st = st0).
  { unfold st0, add_listener. rewrite Hsig, Hab. reflexivity. }
  unfold claim. rewrite Hadd.
  destruct ts as [|p ts' _] using rev_ind.
  - simpl in Habort, Hget. rewrite !Nat.add_0_r in *.
    rewrite poll_cancelled; [| exact Hres | reflexivity | exact Habort].
    change (polls st0) with (polls st). rewrite Hget.
    destruct fuel as [|fuel]; [simpl in Hfuel; lia|].
    cbn [poll_loop]. unfold is_aborted.
    cbn [signal tick_awaits set_result set_signal aborted negb]. rewrite andb_false_r.
    eexists. split; [reflexivity|].
    unfold settle, remove_listener.
    cbn [signal result st0 tick_awaits tick_polls note set_result set_signal steps polls aborted].
    split; [reflexivity|]. split; [|split; [reflexivity|simpl; lia]].
    unfold polled. simpl. repeat (rewrite <- List.app_assoc; simpl). reflexivity.
  - rewrite length_app in Hquiet, Habort, Hget, Hfuel. simpl in Hquiet, Habort, Hget, Hfuel.
    rewrite poll_quiet by (apply Hquiet; simpl; lia).
    set (st1 := tick_awaits (tick_polls (note (GetTimeout route) st0))).
    destruct (rounds_frame route ts' st1) as (Hr & Hs & Hp & Ha & Ht).
    set (st2 := rounds route ts' st1) in *.
    assert (Hr2 : result st2 = None) by (rewrite Hr; exact Hres).
    assert (Hs2 : signal st2 = Some (mkSignal false true)) by (rewrite Hs; reflexivity).
    assert (Hp2 : polls st2 = (S (polls st) + length ts')%nat) by (rewrite Hp; reflexivity).
    assert (Ha2 : awaits st2 = (awaits st + 2 * length ts' + 1)%nat).
    { rewrite Ha. simpl. lia. }
    assert (Ht2 : steps st2 = steps st ++ AddListener :: polled route ts').
    { rewrite Ht. simpl. rewrite <- !app_assoc. reflexivity. }
    assert (H0 : getTimeout be (polls st0) route = inr (hd p (ts' ++ [p]))).
    { cbn [polls st0 note set_signal]. rewrite <- (Nat.add_0_r (polls st)).
      apply (Hts 0%nat). destruct ts'; reflexivity. }
    rewrite H0.
    replace fuel with (length ts' + S (S (fuel - S (S (length ts')))))%nat by lia.
    rewrite (poll_loop_rounds be route ts' st1 _ p).
    + fold st2.
      assert (Hpp : 0 < p).
      { apply (Hts (length ts')). rewrite lookup_app_r by lia.
        rewrite Nat.sub_diag. reflexivity. }
      apply Z.ltb_lt in Hpp. cbn [poll_loop]. rewrite Hpp.
      unfold is_aborted at 1. rewrite Hs2. cbn [aborted negb andb].
      rewrite pause_quiet by (apply Hquiet; rewrite Ha2; lia).
      rewrite poll_cancelled.
      * cbn [polls tick_awaits note]. rewrite Hp2.
        replace (S (polls st) + length ts')%nat with (polls st + (length ts' + 1))%nat by lia.
        rewrite Hget.
        unfold is_aborted. cbn [signal tick_awaits set_result set_signal aborted negb].
        rewrite andb_false_r.
        eexists. split; [reflexivity|].
        unfold settle, remove_listener.
        cbn [signal result tick_awaits tick_polls note set_result set_signal steps polls aborted].
        rewrite Ht2, Hp2. split; [reflexivity|].
        split; [|split; [reflexivity | rewrite length_app; simpl; lia]].
        unfold polled. rewrite flat_map_app. simpl.
        repeat (rewrite <- List.app_assoc; simpl). reflexivity.
      * exact Hr2.
      * exact Hs2.
      * cbn [awaits tick_awaits note]. rewrite Ha2.
        replace (S (awaits st + 2 * length ts' + 1))%nat
          with (awaits st + 2 * (length ts' + 1))%nat by lia.
        exact Habort.
    + reflexivity.
    + intros k Hk. apply Hquiet. simpl in Hk. lia.
    + intros k x Hk. apply (Hts k). apply lookup_app_l_Some. exact Hk.
    + intros k x Hk. cbn [polls st1 st0 tick_awaits tick_polls note set_signal].
      replace (S (polls st) + k)%nat with (polls st + S k)%nat by lia.
      apply (Hts (S k)). exact Hk.
Qed.

(** ** The mutex on concrete backends *)

Lemma claim_waits_witness :
  exists st',
    claim clearing 3 "route" (initial (Some (mkSignal false false))) = (true, st') /\
    result st' = Some (Resolved JUndefined) /\
    steps st' =
      [AddListener; GetTimeout "route"; Pause 100; GetTimeout "route";
       Pause 100; GetTimeout "route"; RemoveListener].
Proof.
  destruct (claim_waits_until_clear clearing "route" (initial (Some (mkSignal false false)))
              [100; 100] 0 3 eq_refl eq_refl (fun _ => eq_refl))
    as (st' & Hrun & Hres & Hsteps & _).
  - intros [|[|k]] x Hk; simpl in Hk; inversion Hk; lia.
  - lia.
  - intros [|[|[|k]]] x Hk; simpl in Hk; inversion Hk; reflexivity.
  - simpl; lia.
  - exists st'. split; [exact Hrun|]. split; [exact Hres | exact Hsteps].
Defined.

Lemma claim_rejects_witness :
  exists st',
    claim failing 1 "route" (initial (Some (mkSignal false false))) = (true, st') /\
    result st' = Some (Rejected (JError "backend")) /\
    steps st' = [AddListener; GetTimeout "route"; Pause 100; GetTimeout "route"] /\
    signal st' = Some (mkSignal false true).
Proof.
  destruct (claim_rejects_and_keeps_listener failing "route"
              (initial (Some (mkSignal false false))) [100] (JError "backend") 1
              eq_refl eq_refl (fun _ => eq_refl))
    as (st' & Hrun & Hres & Hsteps & Hsig & _).
  - intros [|k] x Hk; simpl in Hk; inversion Hk. split; [lia | reflexivity].
  - reflexivity.
  - simpl; lia.
  - exists st'. split; [exact Hrun|]. split; [exact Hres|]. split; [exact Hsteps | exact Hsig].
Defined.

Lemma claim_already_aborted_witness :
  exists st',
    claim clearing 1 "route" (initial (Some (mkSignal true false))) = (true, st') /\
    result st' = Some (Resolved JUndefined) /\
    steps st' = [AddListener; GetTimeout "route"; RemoveListener].
Proof.
  destruct (claim_resolves_when_already_aborted clearing "route"
              (initial (Some (mkSignal true false))) (mkSignal true false) 100 1
              eq_refl eq_refl eq_refl eq_refl)
    as (st' & Hrun & Hres & Hsteps & _).
  - lia.
  - exists st'. split; [exact Hrun|]. split; [exact Hres | exact Hsteps].
Defined.

Lemma claim_cancelled_witness :
  exists st',
    claim cancelling 2 "route" (initial (Some (mkSignal false false))) = (true, st') /\
    result st' = Some (Rejected (JError "cancelled")) /\
    steps st' =
      [AddListener; GetTimeout "route"; Pause 100; GetTimeout "route"; RemoveListener].
Proof.
  destruct (claim_cancelled_during_wait cancelling "route"
              (initial (Some (mkSignal false false))) (mkSignal false false) [] 100 100 2
              eq_refl eq_refl eq_refl)
    as (st' & Hrun & Hres & Hsteps & _).
  - intros k Hk. simpl in Hk. replace k with 0%nat by lia. reflexivity.
  - reflexivity.
  - intros [|k] x Hk; simpl in Hk; inversion Hk. split; [lia | reflexivity].
  - reflexivity.
  - simpl; lia.
  - exists st'. split; [exact Hrun|]. split; [exact Hres | exact Hsteps].
Defined.

Lemma claim_cancelled_during_poll_witness :
  exists st',
    claim cancelling_early 1 "route" (initial (Some (mkSignal false false))) = (true, st') /\
    result st' = Some (Rejected (JError "cancelled")) /\
    steps st' = [AddListener; GetTimeout "route"; RemoveListener].
Proof.
  destruct (claim_cancelled_during_poll cancelling_early "route"
              (initial (Some (mkSignal false false))) (mkSignal false false) [] 100 1
              eq_refl eq_refl eq_refl)
    as (st' & Hrun & Hres & Hsteps & _).
  - intros k Hk. simpl in Hk. lia.
  - reflexivity.
  - intros k x Hk. inversion Hk.
  - reflexivity.
  - simpl; lia.
  - exists st'. split; [exact Hrun|]. split; [exact Hres | exact Hsteps].
Defined.
